(** * bulk_fix_chdir: a verified model of [src/cli/bulk_fix_chdir.py]

    The script rewrites Go test files with five [re.sub] passes, keeps a
    backup of every file it changes and reports how many files it fixed.

    Layout of this development:
    - text: Python [str] values as lists of code points;
    - [Regex]: the fragment of Python's [re] syntax the script uses, with a
      backtracking matcher, [re.search] and [re.sub];
    - the script: the five rules, the rule chain, [fix_test_file] and
      [main] over an explicit file-system state with links, permissions
      and the line ends of text mode;
    - the vocabulary of the statements, then the lemmas and the theorems
      about the rule chain, and last those about files and runs. *)

From Stdlib Require Import Ascii.
From stdpp Require Import strings gmap pretty.

(** ** Text *)

(** A Python [str] is a sequence of Unicode code points. *)
Abbreviation char := N.
Abbreviation text := (list N).

(** [T "abc"] is the text of an ASCII literal. *)
Definition T (s : string) : text := N_of_ascii <$> String.list_ascii_of_string s.

(** The double-quote character, U+0022. *)
Definition dq : char := 34%N.
(** Line feed, U+000A. *)
Definition nl : char := 10%N.

(** [str.isspace] on one code point, which is what [\s] tests in a [str]
    pattern: the ASCII controls 9..13 and 28..31, the space, and the Unicode
    white space outside ASCII. *)
Definition is_space (c : char) : bool :=
  ((9 <=? c) && (c <=? 13) || (28 <=? c) && (c <=? 32)
   || (c =? 133) || (c =? 160) || (c =? 5760)
   || (8192 <=? c) && (c <=? 8202)
   || (c =? 8232) || (c =? 8233) || (c =? 8239) || (c =? 8287)
   || (c =? 12288))%N.

(** [str.startswith]: when [p] is a prefix of [s], what follows it. *)
Fixpoint strip_prefix (p s : text) : option text :=
  match p, s with
  | [], _ => Some s
  | a :: p', b :: s' => if (a =? b)%N then strip_prefix p' s' else None
  | _ :: _, [] => None
  end.

(** [needle in s]. *)
Fixpoint contains (needle s : text) : bool :=
  match strip_prefix needle s with
  | Some _ => true
  | None => match s with
            | [] => false
            | _ :: s' => contains needle s'
            end
  end.

(** [s.endswith(suffix)]. *)
Definition endswith (s suffix : text) : bool :=
  bool_decide (drop (length s - length suffix) s = suffix).

(** ** Regular expressions *)

Module Regex.

(** The character classes of the script's patterns. *)
Inductive cclass :=
  | CSpace   (** [\s] *)
  | CDot.    (** [.], without DOTALL: anything but a line feed *)

Definition in_class (c : cclass) (x : char) : bool :=
  match c with
  | CSpace => is_space x
  | CDot => negb (x =? nl)%N
  end.

(** The syntax the five patterns are written in.  Repetition is only ever
    applied to a character class, and the only alternative is the greedy
    optional non-capturing group. *)
Inductive regex :=
  | RLit (l : text)                (** literal text (escapes resolved) *)
  | RStar (c : cclass)             (** [c*], greedy *)
  | RPlus (c : cclass)             (** [c+], greedy *)
  | RGroup (n : nat) (r : regex)   (** [(r)], capturing group number [n] *)
  | ROpt (r : regex)               (** [(?:r)?], greedy *)
  | RSeq (r1 r2 : regex).          (** [r1 r2] *)

(** Captured groups, most recent first. *)
Abbreviation caps := (list (nat * text)).

Fixpoint group (n : nat) (g : caps) : option text :=
  match g with
  | [] => None
  | (m, t) :: g' => if (n =? m)%nat then Some t else group n g'
  end.

(** Greedy repetition of a class: take one more character while that leads
    to a match, otherwise hand the input to the continuation. *)
Fixpoint star_class {A} (c : cclass) (s : text) (k : text → option A)
  : option A :=
  match s with
  | x :: s' =>
      if in_class c x then
        match star_class c s' k with
        | Some r => Some r
        | None => k s
        end
      else k s
  | [] => k s
  end.

(** The backtracking matcher, in continuation-passing style: [rmatch r s g k]
    matches [r] at the start of [s] and passes the rest of the input and the
    groups to [k]; alternatives are tried in the order Python tries them and
    the first success wins. *)
Fixpoint rmatch {A} (r : regex) (s : text) (g : caps)
    (k : text → caps → option A) : option A :=
  match r with
  | RLit l =>
      match strip_prefix l s with
      | Some s' => k s' g
      | None => None
      end
  | RStar c => star_class c s (λ s', k s' g)
  | RPlus c =>
      match s with
      | x :: s' => if in_class c x then star_class c s' (λ s'', k s'' g)
                   else None
      | [] => None
      end
  | RGroup n r1 =>
      rmatch r1 s g (λ s' g', k s' ((n, take (length s - length s') s) :: g'))
  | ROpt r1 =>
      match rmatch r1 s g k with
      | Some res => Some res
      | None => k s g
      end
  | RSeq r1 r2 => rmatch r1 s g (λ s' g', rmatch r2 s' g' k)
  end.

(** [pattern.match(s)]: a match at the start of [s], as the text after the
    match and the groups. *)
Definition re_match (r : regex) (s : text) : option (text * caps) :=
  rmatch r s [] (λ s' g, Some (s', g)).

(** [re.search(pattern, s)]: the leftmost position with a match, as the text
    before the match, the text after it and the groups. *)
Fixpoint re_search (r : regex) (s : text) : option (text * text * caps) :=
  match re_match r s with
  | Some (rest, g) => Some ([], rest, g)
  | None =>
      match s with
      | [] => None
      | x :: s' =>
          match re_search r s' with
          | Some (pre, rest, g) => Some (x :: pre, rest, g)
          | None => None
          end
      end
  end.

(** The number of capturing groups of a pattern. *)
Fixpoint ngroups (r : regex) : nat :=
  match r with
  | RLit _ | RStar _ | RPlus _ => 0
  | RGroup _ r1 => S (ngroups r1)
  | ROpt r1 => ngroups r1
  | RSeq r1 r2 => ngroups r1 + ngroups r2
  end.

(** A replacement template: literal text and group references [\n]. *)
Inductive tok :=
  | TChars (l : text)
  | TGroup (n : nat).
Abbreviation template := (list tok).

(** A group that took no part in the match expands to the empty string. *)
Definition expand_tok (g : caps) (t : tok) : text :=
  match t with
  | TChars l => l
  | TGroup n => default [] (group n g)
  end.

Definition expand (t : template) (g : caps) : text :=
  concat (expand_tok g <$> t).

(** [re] refuses a template that names a group the pattern does not have
    ("invalid group reference"), whether or not anything matches. *)
Definition tok_ok (r : regex) (t : tok) : bool :=
  match t with
  | TChars _ => true
  | TGroup n => (1 <=? n)%nat && (n <=? ngroups r)%nat
  end.

Definition template_ok (r : regex) (t : template) : bool :=
  forallb (tok_ok r) t.

(** The substitution loop of [re.sub]: scan from the left; at a match emit
    the expanded template and go on after the match, otherwise copy one
    character.  [fuel] bounds the number of steps; each step consumes at
    least one character.  None of the script's patterns matches the empty
    string (see [rules_nonempty]), so the empty-match branch is never
    taken for them. *)
Fixpoint sub_loop (r : regex) (t : template) (fuel : nat) (s : text) : text :=
  match fuel with
  | O => s
  | S fuel' =>
      match re_match r s with
      | Some (rest, g) =>
          if (length rest <? length s)%nat
          then expand t g ++ sub_loop r t fuel' rest
          else expand t g ++
               match s with
               | [] => []
               | x :: s' => x :: sub_loop r t fuel' s'
               end
      | None =>
          match s with
          | [] => []
          | x :: s' => x :: sub_loop r t fuel' s'
          end
      end
  end.

Definition sub_text (r : regex) (t : template) (s : text) : text :=
  sub_loop r t (S (length s)) s.

End Regex.

Import Regex.

(** ** Exceptions *)

Inductive exn :=
  | ReError            (** [re.error] *)
  | OSError            (** [FileNotFoundError], [PermissionError], ... *)
  | UnicodeError.      (** [UnicodeDecodeError] *)

Inductive result (A : Type) :=
  | Ok (a : A)
  | Raise (e : exn).
Arguments Ok {A} a.
Arguments Raise {A} e.

(** [re.sub(pattern, repl, string)]. *)
Definition re_sub (r : regex) (t : template) (s : text) : result text :=
  if template_ok r t then Ok (sub_text r t s) else Raise ReError.

Global Instance result_ret : MRet result := λ A a, Ok a.
Global Instance result_bind : MBind result := λ A B f m,
  match m with
  | Ok a => f a
  | Raise e => Raise e
  end.

(** ** The script *)

(** [rseq [r1; ...; rn]] is the pattern [r1 ... rn]. *)
Fixpoint rseq (l : list regex) : regex :=
  match l with
  | [] => RLit []
  | [r] => r
  | r :: l' => RSeq r (rseq l')
  end.

(** [\s+] *)
Definition ws : regex := RPlus CSpace.

(** [r'(\s+)(?:\/\/ Save and restore working directory\s+)?origDir, _ := os\.Getwd\(\)\s+defer os\.Chdir\(origDir\)\s+(?:\/\/ Given: .*\s+)?tempDir := t\.TempDir\(\)\s+os\.Chdir\(tempDir\)'] *)
Definition pattern1 : regex :=
  rseq [ RGroup 1 ws;
         ROpt (rseq [RLit (T "// Save and restore working directory"); ws]);
         RLit (T "origDir, _ := os.Getwd()"); ws;
         RLit (T "defer os.Chdir(origDir)"); ws;
         ROpt (rseq [RLit (T "// Given: "); RStar CDot; ws]);
         RLit (T "tempDir := t.TempDir()"); ws;
         RLit (T "os.Chdir(tempDir)") ].

(** [r'\1WithIsolatedDirectory(t, func(workingDir string) {'] *)
Definition replacement1 : template :=
  [ TGroup 1; TChars (T "WithIsolatedDirectory(t, func(workingDir string) {") ].

(** [r'getFreshRootCmd\(\)'] and [r'GetCommandInDirectory(workingDir)'] *)
Definition pattern2 : regex := RLit (T "getFreshRootCmd()").
Definition replacement2 : template :=
  [ TChars (T "GetCommandInDirectory(workingDir)") ].

(** The file name literal of the third rule, with its quotes. *)
Definition ddx_yml : text := [dq] ++ T ".ddx.yml" ++ [dq].

(** [r'assert\.FileExists\(t, "\.ddx\.yml"'] and
    [r'assert.FileExists(t, filepath.Join(workingDir, ".ddx.yml")'] *)
Definition pattern3 : regex := RLit (T "assert.FileExists(t, " ++ ddx_yml).
Definition replacement3 : template :=
  [ TChars (T "assert.FileExists(t, filepath.Join(workingDir, " ++ ddx_yml ++ T ")") ].

(** [r'os\.WriteFile\("\.ddx\.yml"'] and
    [r'os.WriteFile(filepath.Join(workingDir, ".ddx.yml")'] *)
Definition pattern4 : regex := RLit (T "os.WriteFile(" ++ ddx_yml).
Definition replacement4 : template :=
  [ TChars (T "os.WriteFile(filepath.Join(workingDir, " ++ ddx_yml ++ T ")") ].

(** [r'os\.ReadFile\("\.ddx\.yml"'] and
    [r'os.ReadFile(filepath.Join(workingDir, ".ddx.yml")'] *)
Definition pattern5 : regex := RLit (T "os.ReadFile(" ++ ddx_yml).
Definition replacement5 : template :=
  [ TChars (T "os.ReadFile(filepath.Join(workingDir, " ++ ddx_yml ++ T ")") ].

(** The five passes, one by one.  The first call passes [flags=re.MULTILINE],
    which changes what [^] and [$] match; the pattern has neither. *)
Definition rule1 : text → result text := re_sub pattern1 replacement1.
Definition rule2 : text → result text := re_sub pattern2 replacement2.
Definition rule3a : text → result text := re_sub pattern3 replacement3.
Definition rule3b : text → result text := re_sub pattern4 replacement4.
Definition rule3c : text → result text := re_sub pattern5 replacement5.

(** The rule chain of [fix_test_file], the operation the specification
    calls [rewrite]: what the file's text becomes, and whether that differs
    from the original ([content != original_content]). *)
Definition rewrite_text (original_content : text) : result (text * bool) :=
  content ← rule1 original_content;
  content ← rule2 content;
  content ← rule3a content;
  content ← rule3b content;
  content ← rule3c content;
  mret (content, negb (bool_decide (content = original_content))).

(** *** The file system *)

(** What a path names. *)
Inductive node :=
  | Absent                       (** nothing: [os.path.exists] is false *)
  | Dir (entries : list text)    (** a directory; [os.listdir] gives [entries] *)
  | NotDir.                      (** something [os.listdir] raises for *)

(** What a regular file holds. *)
Inductive stored :=
  | Chars (raw : text)   (** characters, with the line ends as they are stored *)
  | Undecodable.         (** bytes that the encoding of the locale rejects *)

Inductive event :=
  | EvRead (path content : text)     (** [f.read()] returned [content] *)
  | EvWrite (path content : text).   (** [content] was written to the file *)

(** The state the script runs in.
    - [cmd]: what the path [cmd] is.
    - [file_of p]: the file that the path [p] leads to once links are
      followed, under a name of its own.  Two paths with the same [file_of]
      are one file: two hard links, a symbolic link and what it points to.
    - [disk]: the regular files that exist, by that name.
    - [may_read f], [may_write f]: whether [open(p, 'r')] and [open(p, 'w')]
      succeed on a path that leads to [f], as far as permissions, read-only
      directories and the like decide; a file that is not on [disk] cannot
      be opened for reading in any case.
    - [write_stops f content]: when the write of [content] to the open file
      [f] breaks off, as on a full disk, the characters that have reached
      the file by then.
    - [stdout], [trace]: the lines printed and the reads and writes
      performed, oldest first.
    The script makes no link and changes no permission, so [file_of],
    [may_read], [may_write] and [write_stops] are the same before and after
    every step. *)
Record world := World {
  cmd : node;
  file_of : text → text;
  disk : gmap text stored;
  may_read : text → bool;
  may_write : text → bool;
  write_stops : text → text → option text;
  stdout : list text;
  trace : list event;
}.

Definition print (line : text) (w : world) : world :=
  World (cmd w) (file_of w) (disk w) (may_read w) (may_write w)
        (write_stops w) (stdout w ++ [line]) (trace w).

Definition log (e : event) (w : world) : world :=
  World (cmd w) (file_of w) (disk w) (may_read w) (may_write w)
        (write_stops w) (stdout w) (trace w ++ [e]).

(** The file that [path] leads to gets the characters [content]. *)
Definition store (path content : text) (w : world) : world :=
  World (cmd w) (file_of w) (<[file_of w path := Chars content]> (disk w))
        (may_read w) (may_write w) (write_stops w) (stdout w) (trace w).

(** What reading in text mode makes of the line ends: [open] is called
    without [newline], so both a carriage return followed by a line feed and
    a carriage return alone are read as one line feed. *)
Fixpoint universal_newlines (raw : text) : text :=
  match raw with
  | [] => []
  | x :: raw' =>
      if (x =? 13)%N then
        nl :: match raw' with
              | [] => []
              | y :: raw'' =>
                  if (y =? 10)%N then universal_newlines raw''
                  else universal_newlines raw'
              end
      else x :: universal_newlines raw'
  end.

(** [with open(path, 'r') as f: f.read()].  [open] raises an [OSError] when
    the file is missing or may not be read, [read] raises a
    [UnicodeDecodeError] when the bytes do not decode. *)
Definition read_file (path : text) (w : world) : result text * world :=
  let f := file_of w path in
  if may_read w f then
    match disk w !! f with
    | Some (Chars raw) =>
        let content := universal_newlines raw in
        (Ok content, log (EvRead path content) w)
    | Some Undecodable => (Raise UnicodeError, w)
    | None => (Raise OSError, w)
    end
  else (Raise OSError, w).

(** [with open(path, 'w') as f: f.write(content)] on POSIX, where a line
    feed is written as it is.  [open] raises an [OSError] when the file may
    not be written or made; nothing is written then.  Once the file is open
    it has lost what it held; when the write breaks off, the file keeps what
    has reached it and the [OSError] is raised.  The text written is text
    that was read or ASCII, so it encodes. *)
Definition write_file (path content : text) (w : world) : result unit * world :=
  let f := file_of w path in
  if may_write w f then
    match write_stops w f content with
    | None => (Ok (), log (EvWrite path content) (store path content w))
    | Some part => (Raise OSError, log (EvWrite path part) (store path part w))
    end
  else (Raise OSError, w).

(** [os.path.join] on POSIX, for a first component that is not empty and
    does not end with a slash: a second component that starts with a slash
    stands for itself. *)
Definition path_join (a b : text) : text :=
  match b with
  | x :: _ => if (x =? 47)%N then b else a ++ T "/" ++ b
  | [] => a ++ T "/" ++ b
  end.

Definition fix_test_file (filepath : text) (w : world) : result bool * world :=
  match read_file filepath w with
  | (Raise e, w) => (Raise e, w)
  | (Ok original_content, w) =>
      match rewrite_text original_content with
      | Raise e => (Raise e, w)
      | Ok (content, changed) =>
          if changed then
            match write_file (filepath ++ T ".backup") original_content w with
            | (Raise e, w) => (Raise e, w)
            | (Ok _, w) =>
                match write_file filepath content w with
                | (Raise e, w) => (Raise e, w)
                | (Ok _, w) => (Ok true, w)
                end
            end
          else (Ok false, w)
      end
  end.

Definition cmd_dir : text := T "cmd".

(** The [for] loop of [main] with its counter. *)
Fixpoint main_loop (names : list text) (fixed_count : nat) (w : world)
  : result nat * world :=
  match names with
  | [] => (Ok fixed_count, w)
  | filename :: names' =>
      if endswith filename (T "_test.go") then
        let filepath := path_join cmd_dir filename in
        match fix_test_file filepath w with
        | (Raise e, w') => (Raise e, w')
        | (Ok true, w') =>
            main_loop names' (S fixed_count) (print (T "Fixed " ++ filename) w')
        | (Ok false, w') =>
            main_loop names' fixed_count
                      (print (T "No changes needed for " ++ filename) w')
        end
      else main_loop names' fixed_count w
  end.

(** [os.path.exists] is false for [Absent]; [os.listdir] raises for what is
    not a directory. *)
Definition main (w : world) : result Z * world :=
  match cmd w with
  | Absent => (Ok 1%Z, print (T "cmd directory not found!") w)
  | NotDir => (Raise OSError, w)
  | Dir names =>
      match main_loop names 0 w with
      | (Raise e, w') => (Raise e, w')
      | (Ok fixed_count, w') =>
          (Ok 0%Z,
           print (nl :: T "Fixed " ++ T (pretty fixed_count) ++ T " test files") w')
      end
  end.

(** [sys.exit(main())]: the value [main] returns is the exit status; an
    exception that nothing catches ends the process with status 1. *)
Definition exit_status (r : result Z) : Z :=
  match r with
  | Ok code => code
  | Raise _ => 1%Z
  end.

Definition run (w : world) : Z * world :=
  let '(r, w') := main w in (exit_status r, w').

(** * The vocabulary of the statements *)

(** A text that is empty or starts outside the class ends a greedy run. *)
Definition stops (c : cclass) (s : text) : bool :=
  match s with
  | [] => true
  | x :: _ => negb (in_class c x)
  end.

(** Every character of [s] is in the class. *)
Definition all_in (c : cclass) (s : text) : bool := forallb (in_class c) s.

(** The least number of characters a match of a pattern takes. *)
Fixpoint min_len (r : regex) : nat :=
  match r with
  | RLit l => length l
  | RStar _ | ROpt _ => 0
  | RPlus _ => 1
  | RGroup _ r1 => min_len r1
  | RSeq r1 r2 => min_len r1 + min_len r2
  end.

(** Opening minus closing parentheses. *)
Fixpoint paren_excess (s : text) : Z :=
  match s with
  | [] => 0
  | x :: s' =>
      (if (x =? 40)%N then 1 else if (x =? 41)%N then -1 else 0)
      + paren_excess s'
  end%Z.

(** The first character of [l] does not occur in [l] again, so two
    occurrences of [l] never overlap. *)
Definition head_unique (l : text) : bool :=
  match l with
  | [] => false
  | c :: l' => negb (existsb (N.eqb c) l')
  end.

(** The five passes as functions on text. *)
Local Abbreviation sub1 := (sub_text pattern1 replacement1).
Local Abbreviation sub2 := (sub_text pattern2 replacement2).
Local Abbreviation sub3 := (sub_text pattern3 replacement3).
Local Abbreviation sub4 := (sub_text pattern4 replacement4).
Local Abbreviation sub5 := (sub_text pattern5 replacement5).

(** The call rule 2 looks for, and the call it puts in its place. *)
Definition fresh_call : text := T "getFreshRootCmd()".
Definition directory_call : text := T "GetCommandInDirectory(workingDir)".

(** [filepath.Join(workingDir, ".ddx.yml")] *)
Definition join_call : text :=
  T "filepath.Join(workingDir, " ++ ddx_yml ++ T ")".

(** The three call shapes of rule 3, up to the file name argument. *)
Inductive shape := FileExists | WriteFile | ReadFile.

Definition call_head (sh : shape) : text :=
  match sh with
  | FileExists => T "assert.FileExists(t, "
  | WriteFile => T "os.WriteFile("
  | ReadFile => T "os.ReadFile("
  end.

Definition path_pattern (sh : shape) : regex :=
  match sh with
  | FileExists => pattern3
  | WriteFile => pattern4
  | ReadFile => pattern5
  end.

Definition path_replacement (sh : shape) : template :=
  match sh with
  | FileExists => replacement3
  | WriteFile => replacement4
  | ReadFile => replacement5
  end.

Definition path_rule (sh : shape) : text → result text :=
  match sh with
  | FileExists => rule3a
  | WriteFile => rule3b
  | ReadFile => rule3c
  end.

(** The rule table: the (pattern, replacement) pairs in the order
    [fix_test_file] applies them. *)
Definition rules : list (regex * template) :=
  [ (pattern1, replacement1); (pattern2, replacement2);
    (pattern3, replacement3); (pattern4, replacement4);
    (pattern5, replacement5) ].

Definition apply_rules (s : text) : result text :=
  foldl (λ acc '(p, t), acc ≫= re_sub p t) (Ok s) rules.

(** The fixed texts of the first pattern and of its replacement, as lists
    of code points. *)
Definition stmt_getwd : text :=
  Eval vm_compute in T "origDir, _ := os.Getwd()".

Definition stmt_defer : text :=
  Eval vm_compute in T "defer os.Chdir(origDir)".

Definition stmt_tempdir : text :=
  Eval vm_compute in T "tempDir := t.TempDir()".

Definition stmt_chdir : text :=
  Eval vm_compute in T "os.Chdir(tempDir)".

Definition comment_save : text :=
  Eval vm_compute in T "// Save and restore working directory".

Definition comment_given : text :=
  Eval vm_compute in T "// Given: ".

Definition helper_open : text :=
  Eval vm_compute in T "WithIsolatedDirectory(t, func(workingDir string) {".

(** What follows the captured white space in the first pattern. *)
Definition after_indent : regex :=
  rseq [ ROpt (rseq [RLit comment_save; ws]);
         RLit stmt_getwd; ws;
         RLit stmt_defer; ws;
         ROpt (rseq [RLit comment_given; RStar CDot; ws]);
         RLit stmt_tempdir; ws;
         RLit stmt_chdir ].

(** [clash p t]: [p] and [t] differ at a position both have, so [p] is not
    a prefix of [t] however [t] goes on. *)
Fixpoint clash (p t : text) : bool :=
  match p, t with
  | a :: p', b :: t' => if (a =? b)%N then clash p' t' else true
  | _, _ => false
  end.

(** What follows the leading white space of [s]. *)
Fixpoint space_run_end (s : text) : text :=
  match s with
  | x :: s' => if is_space x then space_run_end s' else s
  | [] => []
  end.

(** [quiet l]: no match of the first pattern starts inside the fixed text
    [l], whatever follows it.  At each position either the character is not
    white space, or the white space there is followed, still inside [l], by
    text that clashes with both ways a match can go on. *)
Definition quiet_at (s : text) : bool :=
  match s with
  | [] => true
  | x :: _ =>
      negb (is_space x)
      || (let tail := space_run_end s in
          clash stmt_getwd tail && clash comment_save tail)
  end.

Fixpoint quiet (l : text) : bool :=
  match l with
  | [] => true
  | _ :: l' => quiet_at l && quiet l'
  end.

(** The lines of the idiom: the four statements, with or without the
    comment line before them and the [// Given: ...] comment line in the
    place where the pattern admits it, after the [defer] statement. *)
Definition idiom_lines (lead : bool) (given : option text) : list text :=
  (if lead then [comment_save] else [])
  ++ [stmt_getwd; stmt_defer]
  ++ (match given with
      | Some note => [comment_given ++ note]
      | None => []
      end)
  ++ [stmt_tempdir; stmt_chdir].

(** Lines with the same indentation, separated by line feeds. *)
Fixpoint indented (indent : text) (lines : list text) : text :=
  match lines with
  | [] => []
  | [l] => indent ++ l
  | l :: ls => indent ++ l ++ nl :: indented indent ls
  end.

Definition snippet (indent : text) (lead : bool) (given : option text) : text :=
  indented indent (idiom_lines lead given).

(** A note that stays on its line. *)
Definition one_line (given : option text) : bool :=
  match given with
  | Some note => all_in CDot note
  | None => true
  end.

(** The suffix of the files [main] processes and the suffix of a backup. *)
Definition test_suffix : text := T "_test.go".
Definition backup_suffix : text := T ".backup".

(** The text the rule chain makes of [c], and whether that is a change. *)
Definition fixed_text (c : text) : text := sub5 (sub4 (sub3 (sub2 (sub1 c)))).
Definition changes (c : text) : bool := negb (bool_decide (fixed_text c = c)).

(** The texts the three passes of rule 3 look for. *)
Definition exists_call : text := call_head FileExists ++ ddx_yml.
Definition write_call : text := call_head WriteFile ++ ddx_yml.
Definition read_call : text := call_head ReadFile ++ ddx_yml.

(** [inert m rp]: no occurrence of [m] starts inside [rp], whatever
    follows [rp]: at every position of [rp] the text from there on and [m]
    differ at a position both have. *)
Fixpoint inert (m rp : text) : bool :=
  match rp with
  | [] => true
  | _ :: rp' => clash m rp && inert m rp'
  end.

(** [p] is a prefix of [l]. *)
Definition is_prefix (p l : text) : bool :=
  match strip_prefix p l with
  | Some _ => true
  | None => false
  end.

(** [reflects l rp p]: when the pass that puts [rp] in the place of [l]
    gives a text that starts with [p], the text it was given starts with
    [p] too: from every position of [p] on, [p] either differs from [rp]
    at a position both have or is a prefix of [l]. *)
Fixpoint reflects (l rp p : text) : bool :=
  match p with
  | [] => true
  | _ :: p' => (clash p rp || is_prefix p l) && reflects l rp p'
  end.

(** A text on which the second run of the chain changes what the first run
    made: the statements of the idiom around a [// Given:] comment that
    itself ends with the first statement of a second idiom. *)
Definition nested_idiom : text :=
  indented [9%N]
    [ stmt_getwd; stmt_defer; comment_given ++ T "x " ++ stmt_getwd;
      stmt_defer; stmt_tempdir; stmt_chdir; stmt_tempdir; stmt_chdir ].

(** The texts a pattern matches as a whole: the language of the pattern,
    with no regard to the order in which the matcher tries alternatives. *)
Inductive matches : regex → text → Prop :=
  | matches_lit l : matches (RLit l) l
  | matches_star c m : all_in c m = true → matches (RStar c) m
  | matches_plus c m : m ≠ [] → all_in c m = true → matches (RPlus c) m
  | matches_group n r m : matches r m → matches (RGroup n r) m
  | matches_opt_some r m : matches r m → matches (ROpt r) m
  | matches_opt_none r : matches (ROpt r) []
  | matches_seq r1 r2 m1 m2 :
      matches r1 m1 → matches r2 m2 → matches (RSeq r1 r2) (m1 ++ m2).

(** A run of one or more white-space characters. *)
Definition space_run (w : text) : bool :=
  match w with
  | [] => false
  | _ :: _ => all_in CSpace w
  end.



(** ** Files and runs *)

(** The paths read and the files written, oldest first. *)
Definition reads (tr : list event) : list text :=
  omap (λ e, match e with EvRead p _ => Some p | EvWrite _ _ => None end) tr.

Definition writes (tr : list event) : list (text * text) :=
  omap (λ e, match e with EvWrite p c => Some (p, c) | EvRead _ _ => None end) tr.

(** The names [main] processes, in the order of the listing, and their
    paths. *)
Definition test_names (names : list text) : list text :=
  List.filter (λ n, endswith n test_suffix) names.

Definition test_paths (names : list text) : list text :=
  path_join cmd_dir <$> test_names names.

(** The paths a run may open for writing: the test files and their
    backups. *)
Definition touched_paths (names : list text) : list text :=
  test_paths names ++ ((λ p, p ++ backup_suffix) <$> test_paths names).

(** What [f.read()] returns for [path], when the file can be opened and
    its bytes decode. *)
Definition content_of (w : world) (path : text) : option text :=
  if may_read w (file_of w path) then
    match disk w !! file_of w path with
    | Some (Chars raw) => Some (universal_newlines raw)
    | _ => None
    end
  else None.

(** Every test file the directory lists can be read. *)
Definition readable (w : world) (names : list text) : bool :=
  forallb (λ n, bool_decide (is_Some (content_of w (path_join cmd_dir n))))
          (test_names names).






(** What processing the file at [p] adds to the trace when [f.read()]
    returns [c], every open succeeds and no write breaks off. *)
Definition file_events (p c : text) : list event :=
  EvRead p c
  :: (if changes c
      then [EvWrite (p ++ backup_suffix) c; EvWrite p (fixed_text c)]
      else []).

(** The world after the file at [p], read as [c], has been processed with
    every open succeeding and no write breaking off. *)
Definition processed (p c : text) (w : world) : world :=
  World (cmd w) (file_of w)
        (if changes c
         then <[file_of w p := Chars (fixed_text c)]>
                (<[file_of w (p ++ backup_suffix) := Chars c]> (disk w))
         else disk w)
        (may_read w) (may_write w) (write_stops w) (stdout w)
        (trace w ++ file_events p c).


(** The last line of a run that fixed [k] files. *)
Definition summary_line (k : nat) : text :=
  nl :: T "Fixed " ++ T (pretty k) ++ T " test files".




(** A text without carriage returns. *)
Definition no_cr (s : text) : Prop := Forall (λ x : char, x ≠ 13%N) s.

(** No write breaks off once the file is open. *)
Definition roomy (w : world) : Prop :=
  ∀ f content, write_stops w f content = None.

(** The two worlds have the same directory, links, permissions and room. *)
Definition same_setting (w w' : world) : Prop :=
  cmd w' = cmd w ∧ file_of w' = file_of w
  ∧ may_read w' = may_read w ∧ may_write w' = may_write w
  ∧ write_stops w' = write_stops w.



(** A world without links in which every open succeeds and no write
    breaks off. *)
Definition plain_world (c : node) (d : gmap text stored) : world :=
  World c (λ p, p) d (λ _, true) (λ _, true) (λ _ _, None) [] [].

(** A directory with two test files, of which the rule chain changes the
    first, and one other file. *)
Definition sample_disk : gmap text stored :=
  <[T "cmd/root_test.go" := Chars (T "cmd := " ++ fresh_call)]>
    (<[T "cmd/README.md" := Chars (T "docs")]>
       {[T "cmd/init_test.go" := Chars (T "package cmd")]}).

Definition sample_world : world :=
  plain_world (Dir [T "root_test.go"; T "README.md"; T "init_test.go"])
              sample_disk.



(** A test file with the line ends of Windows. *)
Definition crlf_text : text :=
  T "cmd := " ++ fresh_call ++ [13%N; 10%N] ++ T "cmd.Execute()" ++ [13%N; 10%N].

Definition crlf_world : world :=
  plain_world (Dir [T "root_test.go"])
              {[T "cmd/root_test.go" := Chars crlf_text]}.



(** The sample directory on a disk that takes no character more. *)
Definition full_disk_world : world :=
  World (Dir [T "root_test.go"; T "README.md"; T "init_test.go"])
        (λ p, p) sample_disk (λ _, true) (λ _, true) (λ _ _, Some []) [] [].

(** * Properties *)

(** ** Prefixes and occurrences *)

Lemma strip_prefix_app (p s : text) : strip_prefix p (p ++ s) = Some s.
Proof.
  induction p as [|a p IH]; simpl; [done|].
  by rewrite N.eqb_refl.
Qed.

Lemma strip_prefix_Some (p s s' : text) :
  strip_prefix p s = Some s' ↔ s = p ++ s'.
Proof.
  split; [|intros ->; apply strip_prefix_app].
  revert s. induction p as [|a p IH]; intros [|b s]; simpl; try congruence.
  destruct (N.eqb_spec a b) as [->|]; [|done].
  intros H. by rewrite (IH _ H).
Qed.

Lemma strip_prefix_None (p s : text) :
  strip_prefix p s = None ↔ ∀ s', s ≠ p ++ s'.
Proof.
  split.
  - intros H s' ->. by rewrite strip_prefix_app in H.
  - intros H. destruct (strip_prefix p s) as [s'|] eqn:E; [|done].
    apply strip_prefix_Some in E. by destruct (H s').
Qed.

Lemma strip_prefix_length (p s s' : text) :
  strip_prefix p s = Some s' → length s = length p + length s'.
Proof. intros ->%strip_prefix_Some. by rewrite length_app. Qed.

Lemma contains_cons (needle : text) (x : char) (s : text) :
  contains needle (x :: s)
  = match strip_prefix needle (x :: s) with
    | Some _ => true
    | None => contains needle s
    end.
Proof. done. Qed.

Lemma contains_true (needle s : text) :
  contains needle s = true ↔ ∃ pre post, s = pre ++ needle ++ post.
Proof.
  split.
  - induction s as [|x s IH]; simpl.
    + destruct (strip_prefix needle []) as [post|] eqn:E; [|done].
      intros _. apply strip_prefix_Some in E. by exists [], post.
    + destruct (strip_prefix needle (x :: s)) as [post|] eqn:E.
      * intros _. apply strip_prefix_Some in E. by exists [], post.
      * intros (pre & post & ->)%IH. by exists (x :: pre), post.
  - intros (pre & post & ->).
    induction pre as [|x pre IH].
    + change ([] ++ needle ++ post) with (needle ++ post).
      pose proof (strip_prefix_app needle post) as E.
      destruct (needle ++ post); simpl; by rewrite E.
    + change ((x :: pre) ++ needle ++ post) with (x :: pre ++ needle ++ post).
      rewrite contains_cons, IH. by destruct (strip_prefix _ _).
Qed.

Lemma contains_false (needle s : text) :
  contains needle s = false ↔ ∀ pre post, s ≠ pre ++ needle ++ post.
Proof.
  rewrite <-not_true_iff_false, contains_true. split.
  - intros H pre post E. apply H. by exists pre, post.
  - intros H (pre & post & E). by apply (H pre post).
Qed.

(** ** The matcher *)

Section matcher.
Context {A : Type}.
Implicit Types (k : text → caps → option A) (s : text) (g : caps).

(** Greedy: when the continuation accepts what follows the whole run, that
    is the match. *)
Lemma star_class_greedy c (run tail : text) (j : text → option A) res :
  all_in c run = true → j tail = Some res →
  stops c tail = true →
  star_class c (run ++ tail) j = Some res.
Proof.
  intros Hrun Hj Hstop.
  induction run as [|x run IH]; simpl in *.
  - destruct tail as [|y tail]; simpl in *; [done|].
    apply negb_true_iff in Hstop. by rewrite Hstop.
  - apply andb_true_iff in Hrun as [-> Hrun]. by rewrite IH.
Qed.

(** Backtracking: when the continuation refuses the input after every
    prefix made of class characters, there is no match. *)
Lemma star_class_None c s (j : text → option A) :
  (∀ run tail, s = run ++ tail → all_in c run = true → j tail = None) →
  star_class c s j = None.
Proof.
  induction s as [|x s IH]; intros H; simpl.
  - by apply (H [] []).
  - destruct (in_class c x) eqn:Hx; [|by apply (H [] (x :: s))].
    rewrite IH; [by apply (H [] (x :: s))|].
    intros run tail -> Hrun. apply (H (x :: run) tail); [done|].
    simpl. by rewrite Hx.
Qed.

Lemma rmatch_lit l s g k res :
  k s g = Some res → rmatch (RLit l) (l ++ s) g k = Some res.
Proof. intros H. simpl. by rewrite strip_prefix_app. Qed.

Lemma rmatch_lit_None l s g k :
  strip_prefix l s = None → rmatch (RLit l) s g k = None.
Proof. intros H. simpl. by rewrite H. Qed.

Lemma rmatch_plus c (run tail : text) g k res :
  run ≠ [] → all_in c run = true → stops c tail = true →
  k tail g = Some res →
  rmatch (RPlus c) (run ++ tail) g k = Some res.
Proof.
  intros Hne Hrun Hstop Hk. destruct run as [|x run]; [done|].
  simpl in *. apply andb_true_iff in Hrun as [-> Hrun].
  by apply (star_class_greedy c run tail (λ s', k s' g)).
Qed.

Lemma rmatch_star c (run tail : text) g k res :
  all_in c run = true → stops c tail = true →
  k tail g = Some res →
  rmatch (RStar c) (run ++ tail) g k = Some res.
Proof.
  intros Hrun Hstop Hk.
  by apply (star_class_greedy c run tail (λ s', k s' g)).
Qed.

Lemma rmatch_plus_None c s g k :
  (∀ run tail, s = run ++ tail → run ≠ [] → all_in c run = true →
               k tail g = None) →
  rmatch (RPlus c) s g k = None.
Proof.
  intros H. destruct s as [|x s]; simpl; [done|].
  destruct (in_class c x) eqn:Hx; [|done].
  apply star_class_None. intros run tail -> Hrun.
  apply (H (x :: run) tail); [done..|]. simpl. by rewrite Hx.
Qed.

Lemma rmatch_seq_lit l r2 s g k res :
  rmatch r2 s g k = Some res →
  rmatch (RSeq (RLit l) r2) (l ++ s) g k = Some res.
Proof. intros H. simpl. by rewrite strip_prefix_app. Qed.

Lemma rmatch_seq_plus c r2 (run tail : text) g k res :
  run ≠ [] → all_in c run = true → stops c tail = true →
  rmatch r2 tail g k = Some res →
  rmatch (RSeq (RPlus c) r2) (run ++ tail) g k = Some res.
Proof.
  intros Hne Hrun Hstop Hk.
  by apply (rmatch_plus c run tail g (λ s' g', rmatch r2 s' g' k)).
Qed.

Lemma rmatch_seq_star c r2 (run tail : text) g k res :
  all_in c run = true → stops c tail = true →
  rmatch r2 tail g k = Some res →
  rmatch (RSeq (RStar c) r2) (run ++ tail) g k = Some res.
Proof.
  intros Hrun Hstop Hk.
  by apply (rmatch_star c run tail g (λ s' g', rmatch r2 s' g' k)).
Qed.

Lemma rmatch_group n r s g k :
  rmatch (RGroup n r) s g k
  = rmatch r s g (λ s' g', k s' ((n, take (length s - length s') s) :: g')).
Proof. done. Qed.

Lemma rmatch_seq r1 r2 s g k :
  rmatch (RSeq r1 r2) s g k = rmatch r1 s g (λ s' g', rmatch r2 s' g' k).
Proof. done. Qed.

Lemma rmatch_opt_take r s g k res :
  rmatch r s g k = Some res → rmatch (ROpt r) s g k = Some res.
Proof. intros H. simpl. by rewrite H. Qed.

Lemma rmatch_opt_skip r s g k :
  rmatch r s g k = None → rmatch (ROpt r) s g k = k s g.
Proof. intros H. simpl. by rewrite H. Qed.
End matcher.

Lemma star_class_suffix {A} c s (j : text → option A) res :
  star_class c s j = Some res →
  ∃ s', j s' = Some res ∧ length s' ≤ length s.
Proof.
  induction s as [|x s IH]; simpl; [by exists []|].
  destruct (in_class c x); [|by exists (x :: s)].
  destruct (star_class c s j) as [res'|] eqn:E.
  - intros [= ->]. destruct (IH eq_refl) as (s' & Hj & Hlen).
    exists s'. split; [done|]. simpl. lia.
  - by exists (x :: s).
Qed.

(** A match hands to its continuation a text that is shorter than the
    input by at least [min_len]. *)
Lemma rmatch_suffix {A} r s g (k : text → caps → option A) res :
  rmatch r s g k = Some res →
  ∃ s' g', k s' g' = Some res ∧ length s' + min_len r ≤ length s.
Proof.
  revert s g k. induction r as [l|c|c|n r IH|r IH|r1 IH1 r2 IH2];
    intros s g k; simpl.
  - destruct (strip_prefix l s) as [s'|] eqn:E; [|done].
    intros Hk. exists s', g. split; [done|].
    apply strip_prefix_length in E. lia.
  - intros (s' & Hk & Hlen)%star_class_suffix. exists s', g.
    split; [done|lia].
  - destruct s as [|x s]; [done|]. destruct (in_class c x); [|done].
    intros (s' & Hk & Hlen)%star_class_suffix. exists s', g.
    split; [done|simpl; lia].
  - intros (s' & g' & Hk & Hlen)%IH. by eexists s', _.
  - destruct (rmatch r s g k) as [res'|] eqn:E.
    + intros [= ->]. apply IH in E as (s' & g' & Hk & Hlen).
      exists s', g'. split; [done|lia].
    + intros Hk. exists s, g. split; [done|lia].
  - intros (s1 & g1 & (s2 & g2 & Hk & Hlen2)%IH2 & Hlen1)%IH1.
    exists s2, g2. split; [done|lia].
Qed.

Lemma re_match_shorter r s rest g :
  0 < min_len r → re_match r s = Some (rest, g) → length rest < length s.
Proof.
  intros Hr (s' & g' & [= -> ->] & Hlen)%rmatch_suffix. lia.
Qed.

(** ** The substitution loop *)

Section sub.
Variables (r : regex) (t : template).

(** Any fuel above the length of the text gives the same result. *)
Lemma sub_loop_fuel (n m : nat) (s : text) :
  length s < n → length s < m → sub_loop r t n s = sub_loop r t m s.
Proof.
  revert m s. induction n as [|n IH]; intros [|m] s Hn Hm; try lia.
  simpl. destruct (re_match r s) as [[rest g]|].
  - destruct (Nat.ltb_spec (length rest) (length s)).
    + f_equal. apply IH; lia.
    + f_equal. destruct s as [|x s]; [done|]. simpl in *.
      f_equal. apply IH; lia.
  - destruct s as [|x s]; [done|]. simpl in *. f_equal. apply IH; lia.
Qed.

(** The loop as [re.sub] runs it, free of fuel. *)
Lemma sub_text_eq (s : text) :
  sub_text r t s =
  match re_match r s with
  | Some (rest, g) =>
      if (length rest <? length s)%nat
      then expand t g ++ sub_text r t rest
      else expand t g ++
           match s with
           | [] => []
           | x :: s' => x :: sub_text r t s'
           end
  | None =>
      match s with
      | [] => []
      | x :: s' => x :: sub_text r t s'
      end
  end.
Proof.
  unfold sub_text at 1. simpl.
  destruct (re_match r s) as [[rest g]|].
  - destruct (Nat.ltb_spec (length rest) (length s)).
    + f_equal. apply sub_loop_fuel; lia.
    + by destruct s.
  - by destruct s.
Qed.

Lemma sub_text_match (s rest : text) (g : caps) :
  re_match r s = Some (rest, g) → length rest < length s →
  sub_text r t s = expand t g ++ sub_text r t rest.
Proof.
  intros H Hlt. rewrite sub_text_eq, H.
  by destruct (Nat.ltb_spec (length rest) (length s)); [|lia].
Qed.

Lemma sub_text_cons (x : char) (s : text) :
  re_match r (x :: s) = None →
  sub_text r t (x :: s) = x :: sub_text r t s.
Proof. intros H. by rewrite sub_text_eq, H. Qed.

Lemma sub_text_nil : re_match r [] = None → sub_text r t [] = [].
Proof. intros H. by rewrite sub_text_eq, H. Qed.

(** A stretch of text in which no match starts is copied. *)
Lemma sub_text_skip (a b : text) :
  (∀ a1 a2, a = a1 ++ a2 → a2 ≠ [] → re_match r (a2 ++ b) = None) →
  sub_text r t (a ++ b) = a ++ sub_text r t b.
Proof.
  induction a as [|x a IH]; intros H; [done|].
  simpl. rewrite sub_text_cons; [|by apply (H [] (x :: a))].
  f_equal. apply IH. intros a1 a2 -> Hne. by apply (H (x :: a1) a2).
Qed.

Lemma re_search_None_cons (x : char) (s : text) :
  re_search r (x :: s) = None →
  re_match r (x :: s) = None ∧ re_search r s = None.
Proof.
  simpl. destruct (re_match r (x :: s)) as [[rest g]|]; [done|].
  by destruct (re_search r s) as [[[pre rest] g]|].
Qed.

(** Zero matches: the text comes back as it was. *)
Lemma sub_text_no_match (s : text) :
  re_search r s = None → sub_text r t s = s.
Proof.
  induction s as [|x s IH]; intros H.
  - apply sub_text_nil. simpl in H.
    by destruct (re_match r []) as [[rest g]|].
  - apply re_search_None_cons in H as [H1 H2].
    rewrite sub_text_cons by done. by rewrite IH.
Qed.
End sub.

(** ** Literal patterns

    Rules 2 and 3 search for fixed text [l] and put fixed text [rp] in its
    place. *)

Lemma paren_excess_app (a b : text) :
  paren_excess (a ++ b) = (paren_excess a + paren_excess b)%Z.
Proof. induction a as [|x a IH]; simpl; lia. Qed.

Lemma re_match_lit (l s : text) :
  re_match (RLit l) s
  = match strip_prefix l s with
    | Some s' => Some (s', [])
    | None => None
    end.
Proof. done. Qed.

Lemma re_search_lit (l s : text) :
  re_search (RLit l) s = None ↔ contains l s = false.
Proof.
  induction s as [|x s IH]; simpl; rewrite re_match_lit.
  - by destruct (strip_prefix l []).
  - destruct (strip_prefix l (x :: s)); [done|].
    rewrite <-IH. by destruct (re_search (RLit l) s) as [[[??]?]|].
Qed.

(** An occurrence of [l] that starts before another one ends before it. *)
Lemma foreign_prefix (c : char) (l a z rest : text) :
  c ∉ l → a ++ c :: z = l ++ rest → ∃ a', a = l ++ a'.
Proof.
  intros Hc. revert a. induction l as [|y l IH]; intros a E.
  - by exists a.
  - destruct a as [|b a]; simpl in E.
    + injection E as -> _. destruct Hc. left.
    + injection E as -> E. destruct (IH (λ H, Hc (list_elem_of_further _ _ _ H)) a E) as [a' ->].
      by exists a'.
Qed.

Lemma head_unique_prefix (l a post rest : text) :
  head_unique l = true → a ≠ [] → a ++ l ++ post = l ++ rest →
  ∃ a', a = l ++ a'.
Proof.
  destruct l as [|c l]; [done|]. simpl. intros Hu%negb_true_iff Ha E.
  destruct a as [|b a]; [done|]. simpl in E. injection E as -> E.
  assert (Hc : c ∉ l).
  { intros Hin. apply not_true_iff_false in Hu. apply Hu.
    apply existsb_exists. exists c. split; [by apply list_elem_of_In|].
    apply N.eqb_refl. }
  destruct (foreign_prefix c l a (l ++ post) rest Hc E) as [a' ->].
  by exists a'.
Qed.

Section literal.
Variables (l rp : text).
Hypothesis l_nonempty : l ≠ [].

Local Abbreviation sub := (sub_text (RLit l) [TChars rp]).

Lemma sub_lit_nil : sub [] = [].
Proof.
  apply sub_text_nil. rewrite re_match_lit.
  by destruct l.
Qed.

Lemma sub_lit_match (rest : text) : sub (l ++ rest) = rp ++ sub rest.
Proof.
  rewrite (sub_text_match _ _ _ rest []).
  - unfold expand. simpl. by rewrite app_nil_r.
  - by rewrite re_match_lit, strip_prefix_app.
  - rewrite length_app. destruct l; simpl; [done|lia].
Qed.

Lemma sub_lit_copy (x : char) (s : text) :
  strip_prefix l (x :: s) = None → sub (x :: s) = x :: sub s.
Proof. intros H. apply sub_text_cons. by rewrite re_match_lit, H. Qed.

(** Induction along the run of the loop: the input is consumed either by
    a match or one copied character at a time. *)
Lemma sub_lit_ind (P : text → text → Prop) :
  P [] [] →
  (∀ rest out, P rest out → P (l ++ rest) (rp ++ out)) →
  (∀ x s out, strip_prefix l (x :: s) = None → P s out →
              P (x :: s) (x :: out)) →
  ∀ s, P s (sub s).
Proof.
  intros Hnil Hmatch Hcopy s.
  remember (length s) as n eqn:Hn. revert s Hn.
  induction n as [n IH] using lt_wf_ind. intros s ->.
  destruct (strip_prefix l s) as [rest|] eqn:E.
  - apply strip_prefix_Some in E as ->. rewrite sub_lit_match.
    apply Hmatch, (IH (length rest)); [|done].
    rewrite length_app. destruct l; simpl; [done|lia].
  - destruct s as [|x s].
    + by rewrite sub_lit_nil.
    + rewrite sub_lit_copy by done. apply Hcopy; [done|].
      apply (IH (length s)); simpl; [lia|done].
Qed.

(** Without an occurrence of [l] nothing changes. *)
Lemma sub_lit_absent (s : text) : contains l s = false → sub s = s.
Proof. intros H. by apply sub_text_no_match, re_search_lit. Qed.

Lemma sub_lit_length_le (s : text) :
  length l ≤ length rp → length s ≤ length (sub s).
Proof.
  intros Hl. apply (sub_lit_ind (λ s out, length s ≤ length out)).
  - done.
  - intros rest out H. rewrite !length_app. lia.
  - intros x s' out _ H. simpl. lia.
Qed.

Lemma sub_lit_length_lt (s : text) :
  length l < length rp → contains l s = true → length s < length (sub s).
Proof.
  intros Hl.
  apply (sub_lit_ind
           (λ s out, length s ≤ length out
                     ∧ (contains l s = true → length s < length out))).
  - split; [done|]. simpl. by destruct l.
  - intros rest out [H1 H2]. rewrite !length_app. split; lia.
  - intros x s' out E [H1 H2]. rewrite contains_cons, E. simpl.
    split; [lia|]. intros H%H2. lia.
Qed.

(** A replacement with as many more opening than closing parentheses as
    the text it replaces keeps that excess for the whole text. *)
Lemma sub_lit_paren_excess (s : text) :
  paren_excess l = paren_excess rp → paren_excess (sub s) = paren_excess s.
Proof.
  intros Hl.
  apply (sub_lit_ind (λ s out, paren_excess out = paren_excess s)).
  - done.
  - intros rest out H. rewrite !paren_excess_app. lia.
  - intros x s' out _ H. simpl. lia.
Qed.

(** When occurrences cannot overlap, the loop distributes over an
    occurrence: whatever stands before and after it, the occurrence itself
    is replaced. *)
Lemma sub_lit_app (pre post : text) :
  head_unique l = true →
  sub (pre ++ l ++ post) = sub pre ++ rp ++ sub post.
Proof.
  intros Hu. remember (length pre) as n eqn:Hn. revert pre Hn.
  induction n as [n IH] using lt_wf_ind. intros pre ->.
  destruct pre as [|x pre].
  { simpl. by rewrite sub_lit_match, sub_lit_nil. }
  destruct (strip_prefix l ((x :: pre) ++ l ++ post)) as [rest|] eqn:E.
  - (* a match at the start lies within [pre] *)
    apply strip_prefix_Some in E.
    destruct (head_unique_prefix l (x :: pre) post rest Hu) as [pre' Hpre];
      [done..|].
    rewrite Hpre, <-!app_assoc, !sub_lit_match.
    rewrite (IH (length pre')); [by rewrite app_assoc| |done].
    rewrite Hpre, length_app. destruct l; simpl; [done|lia].
  - simpl in *. rewrite sub_lit_copy by done.
    rewrite (IH (length pre)); [|lia|done].
    rewrite sub_lit_copy; [done|].
    apply strip_prefix_None. intros s' Hs'.
    apply strip_prefix_None with (s' := s' ++ l ++ post) in E.
    apply E. change (x :: pre ++ l ++ post) with ((x :: pre) ++ l ++ post).
    by rewrite Hs', <-app_assoc.
Qed.

(** Nothing of [l] is left when the replacement starts with a character
    that is foreign to [l] and no occurrence starts inside it. *)
Lemma sub_lit_prefix_reflect (d : char) (rp' : text) (s p : text) :
  rp = d :: rp' → d ∉ p →
  is_Some (strip_prefix p (sub s)) → is_Some (strip_prefix p s).
Proof.
  intros Hrp Hd. revert p Hd.
  apply (sub_lit_ind
           (λ s out, ∀ p, d ∉ p → is_Some (strip_prefix p out)
                          → is_Some (strip_prefix p s))).
  - done.
  - intros rest out _ [|a p] Hd; [by destruct (l ++ rest)|].
    rewrite Hrp. simpl. destruct (N.eqb_spec a d) as [->|]; [|by intros []].
    destruct Hd. left.
  - intros x s' out _ IH [|a p] Hd; [done|]. simpl.
    destruct (N.eqb_spec a x); [|done].
    apply IH. intros Hin. apply Hd. by right.
Qed.

Lemma sub_lit_clean (d : char) (rp' : text) (s : text) :
  rp = d :: rp' → d ∉ l →
  (∀ out, contains l (rp ++ out) = contains l out) →
  contains l (sub s) = false.
Proof.
  intros Hrp Hd Hin. remember (length s) as n eqn:Hn. revert s Hn.
  induction n as [n IH] using lt_wf_ind. intros s ->.
  destruct (strip_prefix l s) as [rest|] eqn:E.
  - apply strip_prefix_Some in E as ->. rewrite sub_lit_match, Hin.
    apply (IH (length rest)); [|done].
    rewrite length_app. destruct l; simpl; [done|lia].
  - destruct s as [|x s].
    + rewrite sub_lit_nil. simpl. by destruct l.
    + rewrite sub_lit_copy by done. rewrite contains_cons.
      destruct (strip_prefix l (x :: sub s)) eqn:E'.
      * assert (is_Some (strip_prefix l (x :: s))) as [? Hs]; [|congruence].
        rewrite <-(sub_lit_copy x s E) in E'.
        eapply sub_lit_prefix_reflect; [done..|]. by rewrite E'.
      * apply (IH (length s)); simpl; [lia|done].
Qed.
End literal.

(** ** The rules of the script *)

Lemma path_pattern_eq sh : path_pattern sh = RLit (call_head sh ++ ddx_yml).
Proof. by destruct sh. Qed.

Lemma path_replacement_eq sh :
  path_replacement sh = [TChars (call_head sh ++ join_call)].
Proof. by destruct sh. Qed.

Lemma path_rule_eq sh s :
  path_rule sh s
  = Ok (sub_text (RLit (call_head sh ++ ddx_yml))
                 [TChars (call_head sh ++ join_call)] s).
Proof. by destruct sh. Qed.

Lemma path_head_unique sh : head_unique (call_head sh ++ ddx_yml) = true.
Proof. by destruct sh. Qed.

Lemma path_paren_excess sh :
  paren_excess (call_head sh ++ ddx_yml)
  = paren_excess (call_head sh ++ join_call).
Proof. by destruct sh. Qed.

Lemma path_pattern_nonempty sh : call_head sh ++ ddx_yml ≠ [].
Proof. by destruct sh. Qed.

Lemma rule1_eq s : rule1 s = Ok (sub1 s).
Proof. done. Qed.

Lemma rule2_eq s : rule2 s = Ok (sub2 s).
Proof. done. Qed.

Lemma rewrite_text_eq s :
  rewrite_text s
  = let content := sub5 (sub4 (sub3 (sub2 (sub1 s)))) in
    Ok (content, negb (bool_decide (content = s))).
Proof. done. Qed.

(** Rules 2 and 3 as literal search and replace. *)
Ltac literal_form :=
  change pattern2 with (RLit fresh_call) in *;
  change replacement2 with [TChars directory_call] in *;
  change pattern3 with (RLit (call_head FileExists ++ ddx_yml)) in *;
  change replacement3 with [TChars (call_head FileExists ++ join_call)] in *;
  change pattern4 with (RLit (call_head WriteFile ++ ddx_yml)) in *;
  change replacement4 with [TChars (call_head WriteFile ++ join_call)] in *;
  change pattern5 with (RLit (call_head ReadFile ++ ddx_yml)) in *;
  change replacement5 with [TChars (call_head ReadFile ++ join_call)] in *.

Lemma fresh_call_clean s : contains fresh_call (sub2 s) = false.
Proof.
  apply (sub_lit_clean fresh_call directory_call ltac:(done) 71%N
           (T "etCommandInDirectory(workingDir)")); [done| |done].
  apply (bool_decide_unpack _). by vm_compute.
Qed.

(** The rule chain never makes a text shorter once rule 1 is through. *)
Lemma literal_rules_length s :
  length s ≤ length (sub5 (sub4 (sub3 s))).
Proof.
  etrans; [|apply sub_lit_length_le; [done|vm_compute; lia]].
  etrans; [|apply sub_lit_length_le; [done|vm_compute; lia]].
  apply sub_lit_length_le; [done|vm_compute; lia].
Qed.

(** Every pattern of the table takes at least one character, so [re.sub]
    goes on after each match. *)
Lemma rules_nonempty :
  Forall (λ '(p, _), ∀ s rest g,
            re_match p s = Some (rest, g) → length rest < length s) rules.
Proof.
  repeat constructor; intros s rest g; apply re_match_shorter;
    vm_compute; lia.
Qed.

Lemma rewrite_text_rules s :
  rewrite_text s
  = content ← apply_rules s;
    mret (content, negb (bool_decide (content = s))).
Proof. done. Qed.

(** * The claims *)

(** ** Rule 3: path qualification *)

(** C1, counterexample.  On the complete call
    [assert.FileExists(t, ".ddx.yml")] rule 3 does not produce the line the
    claim describes, with the join expression left open; it produces the
    line with the join expression closed, and that line has as many closing
    as opening parentheses. *)
Lemma path_rule_result_is_balanced :
  let line := T "assert.FileExists(t, " ++ ddx_yml ++ T ")" in
  let claimed :=
    T "assert.FileExists(t, " ++ (T "filepath.Join(workingDir, " ++ ddx_yml)
      ++ T ")" in
  let actual :=
    T "assert.FileExists(t, " ++ (T "filepath.Join(workingDir, " ++ ddx_yml)
      ++ T "))" in
  rule3a line ≠ Ok claimed
  ∧ rule3a line = Ok actual
  ∧ paren_excess claimed = 1%Z
  ∧ paren_excess actual = 0%Z.
Proof. by vm_compute. Qed.

(** C1, as amended.  In a text with one occurrence of a call shape of rule 3
    the rule replaces the argument [".ddx.yml"] by the closed expression
    [filepath.Join(workingDir, ".ddx.yml")], which ends with its own closing
    parenthesis, and leaves everything before and after it as it was; the
    text keeps its excess of opening over closing parentheses. *)
Theorem path_rule_inserts_closed_join (sh : shape) (pre post : text) :
  contains (call_head sh ++ ddx_yml) pre = false →
  contains (call_head sh ++ ddx_yml) post = false →
  path_rule sh (pre ++ (call_head sh ++ ddx_yml) ++ post)
  = Ok (pre ++ (call_head sh ++ join_call) ++ post)
  ∧ last join_call = Some 41%N
  ∧ paren_excess (pre ++ (call_head sh ++ join_call) ++ post)
    = paren_excess (pre ++ (call_head sh ++ ddx_yml) ++ post).
Proof.
  intros Hpre Hpost. split; [|split; [done|]].
  - rewrite path_rule_eq. f_equal.
    rewrite sub_lit_app by auto using path_pattern_nonempty, path_head_unique.
    rewrite !sub_lit_absent by auto using path_pattern_nonempty.
    done.
  - pose proof (path_paren_excess sh) as E.
    rewrite !paren_excess_app in *. lia.
Qed.

Lemma path_rule_inserts_closed_join_witness :
  path_rule WriteFile
    (T "err := " ++ (call_head WriteFile ++ ddx_yml) ++ T ", data, 0644)")
  = Ok (T "err := " ++ (call_head WriteFile ++ join_call) ++ T ", data, 0644)").
Proof.
  apply (path_rule_inserts_closed_join WriteFile
           (T "err := ") (T ", data, 0644)")); reflexivity.
Defined.

(** C2.  The three replacement templates of rule 3 end with a closing
    parenthesis.  The rule chain turns [assert.FileExists(t, ".ddx.yml")]
    into [assert.FileExists(t, filepath.Join(workingDir, ".ddx.yml"))], whose
    parentheses are balanced, and a text that starts with
    [os.WriteFile(".ddx.yml"] or [os.ReadFile(".ddx.yml"] gets the closed
    call [filepath.Join(workingDir, ".ddx.yml")] as the first argument. *)
Theorem path_templates_end_closed :
  (∀ sh, ∃ body, path_replacement sh = [TChars (body ++ T ")")])
  ∧ rewrite_text (T "assert.FileExists(t, " ++ ddx_yml ++ T ")")
    = Ok (T "assert.FileExists(t, filepath.Join(workingDir, " ++ ddx_yml
            ++ T "))", true)
  ∧ paren_excess (T "assert.FileExists(t, filepath.Join(workingDir, "
                    ++ ddx_yml ++ T "))") = 0%Z
  ∧ (∀ rest, rule3b (T "os.WriteFile(" ++ ddx_yml ++ rest)
             = Ok (T "os.WriteFile(" ++ join_call
                     ++ sub_text pattern4 replacement4 rest))
  ∧ (∀ rest, rule3c (T "os.ReadFile(" ++ ddx_yml ++ rest)
             = Ok (T "os.ReadFile(" ++ join_call
                     ++ sub_text pattern5 replacement5 rest))
  ∧ paren_excess join_call = 0%Z
  ∧ last join_call = Some 41%N.
Proof.
  split; [|split; [by vm_compute|split; [done|]]].
  { intros sh. rewrite path_replacement_eq.
    exists (call_head sh ++ T "filepath.Join(workingDir, " ++ ddx_yml).
    by destruct sh. }
  split; [|split; [|done]].
  - intros rest. apply (f_equal Ok).
    exact (sub_lit_match (T "os.WriteFile(" ++ ddx_yml)
             (T "os.WriteFile(" ++ join_call) ltac:(done) rest).
  - intros rest. apply (f_equal Ok).
    exact (sub_lit_match (T "os.ReadFile(" ++ ddx_yml)
             (T "os.ReadFile(" ++ join_call) ltac:(done) rest).
Qed.

(** ** The whole chain *)

(** C4.  A text in which [re.search] finds no match of the first pattern
    and which contains neither [getFreshRootCmd()] nor any of the three call
    shapes of rule 3 comes back unchanged, with the changed flag false. *)
Theorem no_trigger_no_change (s : text) :
  re_search pattern1 s = None →
  contains fresh_call s = false →
  contains (call_head FileExists ++ ddx_yml) s = false →
  contains (call_head WriteFile ++ ddx_yml) s = false →
  contains (call_head ReadFile ++ ddx_yml) s = false →
  rewrite_text s = Ok (s, false).
Proof.
  intros H1 H2 H3 H4 H5. rewrite rewrite_text_eq. cbv zeta.
  rewrite (sub_text_no_match _ _ _ H1). literal_form.
  rewrite (sub_lit_absent fresh_call _ _ H2).
  rewrite (sub_lit_absent _ _ _ H3).
  rewrite (sub_lit_absent _ _ _ H4).
  rewrite (sub_lit_absent _ _ _ H5).
  by rewrite bool_decide_eq_true_2.
Qed.

Lemma no_trigger_no_change_witness :
  rewrite_text (T "package cmd" ++ [nl] ++ T "func TestX(t *testing.T) {}")
  = Ok (T "package cmd" ++ [nl] ++ T "func TestX(t *testing.T) {}", false).
Proof.
  apply (no_trigger_no_change
           (T "package cmd" ++ [nl] ++ T "func TestX(t *testing.T) {}"));
    reflexivity.
Defined.

(** ** Rule 2: the call rename *)

(** C5.  Rule 2 replaces an occurrence of [getFreshRootCmd()] wherever it
    stands, whatever comes before and after it, and leaves no occurrence
    behind.  It does so whether or not rule 1 matched: when rule 1 finds
    nothing in a text that contains the call, rule 1 returns the text as it
    is and the chain still changes it. *)
Theorem call_rename_is_global (pre post : text) :
  let s := pre ++ fresh_call ++ post in
  rule2 s
  = Ok (sub_text pattern2 replacement2 pre ++ directory_call
          ++ sub_text pattern2 replacement2 post)
  ∧ contains fresh_call (sub_text pattern2 replacement2 s) = false
  ∧ (re_search pattern1 s = None →
     rule1 s = Ok s ∧ ∃ out, out ≠ s ∧ rewrite_text s = Ok (out, true)).
Proof.
  intros s. split; [|split].
  - rewrite rule2_eq. f_equal.
    exact (sub_lit_app fresh_call directory_call ltac:(done) pre post
             ltac:(done)).
  - apply fresh_call_clean.
  - intros H1. rewrite rule1_eq, rewrite_text_eq. cbv zeta.
    rewrite (sub_text_no_match _ _ _ H1). split; [done|].
    assert (Hlen : length s < length (sub5 (sub4 (sub3 (sub2 s))))).
    { eapply Nat.lt_le_trans; [|apply literal_rules_length].
      apply (sub_lit_length_lt fresh_call directory_call ltac:(done));
        [vm_compute; lia|].
      apply contains_true. by exists pre, post. }
    assert (Hne : sub5 (sub4 (sub3 (sub2 s))) ≠ s).
    { intros E. rewrite E in Hlen. lia. }
    eexists. split; [exact Hne|]. by rewrite bool_decide_eq_false_2.
Qed.

Lemma call_rename_is_global_witness :
  rule1 (T "root := " ++ fresh_call ++ T "; root.Execute()")
  = Ok (T "root := " ++ fresh_call ++ T "; root.Execute()")
  ∧ ∃ out, out ≠ T "root := " ++ fresh_call ++ T "; root.Execute()"
         ∧ rewrite_text (T "root := " ++ fresh_call ++ T "; root.Execute()")
           = Ok (out, true).
Proof.
  apply (call_rename_is_global (T "root := ") (T "; root.Execute()")).
  reflexivity.
Defined.

(** ** Failure semantics *)

(** C9.  The rule chain is total: on every text each of the five rules
    returns normally, with the text unchanged unless [re.search] finds a
    match of its pattern, and so the chain returns a text and a flag. *)
Theorem rule_chain_total (s : text) :
  Forall (λ '(p, t), ∃ out, re_sub p t s = Ok out
                            ∧ (is_Some (re_search p s) ∨ out = s)) rules
  ∧ ∃ content changed, rewrite_text s = Ok (content, changed)
                        ∧ apply_rules s = Ok content.
Proof.
  split.
  - assert (Hsub : ∀ p t, is_Some (re_search p s) ∨ sub_text p t s = s).
    { intros p t. destruct (re_search p s) eqn:E; [by left|right].
      by apply sub_text_no_match. }
    repeat constructor; (eexists; split; [reflexivity|apply Hsub]).
  - rewrite rewrite_text_eq. by eexists _, _.
Qed.

(** ** Rule 1: the boilerplate idiom *)

Lemma rule1_texts :
  stmt_getwd = T "origDir, _ := os.Getwd()"
  ∧ stmt_defer = T "defer os.Chdir(origDir)"
  ∧ stmt_tempdir = T "tempDir := t.TempDir()"
  ∧ stmt_chdir = T "os.Chdir(tempDir)"
  ∧ comment_save = T "// Save and restore working directory"
  ∧ comment_given = T "// Given: "
  ∧ helper_open = T "WithIsolatedDirectory(t, func(workingDir string) {".
Proof. by vm_compute. Qed.

Lemma pattern1_eq : pattern1 = RSeq (RGroup 1 ws) after_indent.
Proof. done. Qed.

Lemma sub1_eq s :
  sub1 s = sub_text (RSeq (RGroup 1 ws) after_indent) [TGroup 1; TChars helper_open] s.
Proof. done. Qed.

Lemma take_app_minus (a b : text) :
  take (length (a ++ b) - length b) (a ++ b) = a.
Proof.
  rewrite length_app.
  replace (length a + length b - length b) with (length a) by lia.
  by rewrite take_app_length.
Qed.

Lemma clash_strip_prefix (p t b : text) :
  clash p t = true → strip_prefix p (t ++ b) = None.
Proof.
  revert t. induction p as [|a p IH]; intros [|c t]; simpl; try done.
  destruct (a =? c)%N; [apply IH|done].
Qed.

Lemma space_head_strip_prefix (p : text) (x : char) (s : text) :
  stops CSpace p = true → p ≠ [] → is_space x = true →
  strip_prefix p (x :: s) = None.
Proof.
  destruct p as [|a p]; [done|]. simpl. intros Ha%negb_true_iff _ Hx.
  destruct (N.eqb_spec a x) as [->|]; [congruence|done].
Qed.

(** Two ways to split a text into a run of white space and a rest: if the
    first rest does not start with white space, the second is the first or
    starts with white space. *)
Lemma space_run_split (run tail run' tail' : text) :
  run ++ tail = run' ++ tail' →
  all_in CSpace run' = true → stops CSpace tail = true →
  ∃ mid, run = run' ++ mid ∧ tail' = mid ++ tail.
Proof.
  revert run'. induction run as [|x run IH]; intros [|y run'] E Hr Hs;
    simpl in *.
  - by exists [].
  - subst tail. simpl in *. apply andb_true_iff in Hr as [Hy _].
    by rewrite Hy in Hs.
  - by exists (x :: run).
  - injection E as -> E. apply andb_true_iff in Hr as [_ Hr].
    destruct (IH run' E Hr Hs) as (mid & -> & ->). by exists mid.
Qed.

(** A match of the first pattern starts with a run of white space that is
    followed by the first statement or by the first comment. *)
Lemma pattern1_no_match (run tail : text) :
  all_in CSpace run = true → stops CSpace tail = true →
  strip_prefix stmt_getwd tail = None →
  strip_prefix comment_save tail = None →
  re_match pattern1 (run ++ tail) = None.
Proof.
  intros Hrun Hstop Hg Hc. unfold re_match. rewrite pattern1_eq.
  rewrite rmatch_seq, rmatch_group. apply rmatch_plus_None.
  intros run' tail' E Hne Hrun'.
  assert (Hg' : strip_prefix stmt_getwd tail' = None
                ∧ strip_prefix comment_save tail' = None).
  { destruct (space_run_split _ _ _ _ E Hrun' Hstop) as (mid & -> & ->).
    destruct mid as [|x mid]; [exact (conj Hg Hc)|].
    assert (is_space x = true) as Hx.
    { clear Hg Hc. unfold all_in in Hrun. rewrite forallb_app in Hrun.
      apply andb_true_iff in Hrun as [_ Hrun]. simpl in Hrun.
      apply andb_true_iff in Hrun as [Hx _]. exact Hx. }
    split; apply space_head_strip_prefix;
      solve [reflexivity | discriminate | assumption]. }
  destruct Hg' as [Hg' Hc'].
  unfold after_indent. cbn [rseq].
  rewrite rmatch_seq, rmatch_opt_skip.
  - rewrite rmatch_seq. apply rmatch_lit_None. exact Hg'.
  - rewrite rmatch_seq. apply rmatch_lit_None. exact Hc'.
Qed.

Lemma pattern1_no_match_cons (x : char) (s : text) :
  is_space x = false → re_match pattern1 (x :: s) = None.
Proof.
  intros Hx. unfold re_match. rewrite pattern1_eq.
  rewrite rmatch_seq, rmatch_group. simpl. by rewrite Hx.
Qed.

Lemma pattern1_no_match_nil : re_match pattern1 [] = None.
Proof. done. Qed.

Lemma space_run_end_split (s : text) :
  ∃ run, s = run ++ space_run_end s ∧ all_in CSpace run = true
         ∧ stops CSpace (space_run_end s) = true.
Proof.
  induction s as [|x s (run & E & Hrun & Hstop)]; [by exists []|].
  simpl. destruct (is_space x) eqn:Hx.
  - exists (x :: run). simpl. rewrite Hx, Hrun. split; [by f_equal|done].
  - exists []. simpl. by rewrite Hx.
Qed.

Lemma clash_nonempty (p t : text) : clash p t = true → t ≠ [].
Proof. by destruct p, t. Qed.

Lemma stops_app (c : cclass) (t b : text) :
  t ≠ [] → stops c t = true → stops c (t ++ b) = true.
Proof. by destruct t. Qed.

Lemma quiet_at_no_match (s b : text) :
  s ≠ [] → quiet_at s = true → re_match pattern1 (s ++ b) = None.
Proof.
  intros Hne Hq. destruct s as [|x s']; [done|].
  unfold quiet_at in Hq. apply orb_true_iff in Hq as [Hx|Hq].
  - apply pattern1_no_match_cons. by apply negb_true_iff.
  - cbv zeta in Hq. apply andb_true_iff in Hq as [H1 H2].
    destruct (space_run_end_split (x :: s')) as (run & E & Hrun & Hstop).
    remember (space_run_end (x :: s')) as tail eqn:Htail.
    rewrite E, <-app_assoc.
    apply pattern1_no_match;
      [assumption| |apply clash_strip_prefix; assumption..].
    apply stops_app; [eapply clash_nonempty; eassumption|assumption].
Qed.

Lemma quiet_skip (l b : text) :
  quiet l = true → sub1 (l ++ b) = l ++ sub1 b.
Proof.
  intros Hq. apply sub_text_skip. intros a1 a2 -> Hne.
  apply quiet_at_no_match; [done|].
  induction a1 as [|x a1 IH]; simpl in Hq.
  - destruct a2; [done|]. by apply andb_true_iff in Hq as [Hq _].
  - apply IH. by apply andb_true_iff in Hq as [_ Hq].
Qed.

(** White space before text that starts neither the first statement nor the
    first comment is copied. *)
Lemma space_skip (run tail : text) :
  all_in CSpace run = true → stops CSpace tail = true →
  strip_prefix stmt_getwd tail = None →
  strip_prefix comment_save tail = None →
  sub1 (run ++ tail) = run ++ sub1 tail.
Proof.
  intros Hrun Hstop Hg Hc. apply sub_text_skip. intros a1 a2 -> Hne.
  apply pattern1_no_match; [|assumption..].
  clear Hg Hc. unfold all_in in *. rewrite forallb_app in Hrun.
  apply andb_true_iff in Hrun as [_ Hrun]. exact Hrun.
Qed.

(** *** The idiom *)

Lemma idiom_match (indent : text) (lead : bool) (given : option text)
    (post : text) :
  indent ≠ [] → all_in CSpace indent = true → one_line given = true →
  re_match pattern1 (snippet indent lead given ++ post)
  = Some (post, [(1, indent)]).
Proof.
  intros Hne Hind Hnote.
  assert (Hnl : all_in CSpace (nl :: indent) = true) by exact Hind.
  assert (Hnl' : nl :: indent ≠ []) by discriminate.
  unfold re_match. rewrite pattern1_eq, rmatch_seq, rmatch_group.
  unfold snippet, after_indent.
  destruct lead, given as [note|];
    cbn [idiom_lines app indented rseq];
    repeat (rewrite <-app_assoc || rewrite <-app_comm_cons).
  all: apply (rmatch_plus CSpace indent); [exact Hne|exact Hind|reflexivity|];
    rewrite take_app_minus.
  all: rewrite rmatch_seq.
  1,2: apply rmatch_opt_take; apply rmatch_seq_lit;
       apply (rmatch_plus CSpace (nl :: indent));
       [exact Hnl'|exact Hnl|reflexivity|].
  3,4: rewrite rmatch_opt_skip
         by (apply rmatch_lit_None; reflexivity).
  all: apply rmatch_seq_lit;
       apply (rmatch_seq_plus CSpace _ (nl :: indent));
       [exact Hnl'|exact Hnl|reflexivity|];
       apply rmatch_seq_lit;
       apply (rmatch_seq_plus CSpace _ (nl :: indent));
       [exact Hnl'|exact Hnl|reflexivity|];
       rewrite rmatch_seq.
  1,3: apply rmatch_opt_take; apply rmatch_seq_lit;
       apply (rmatch_seq_star CDot _ note);
       [exact Hnote|reflexivity|];
       apply (rmatch_plus CSpace (nl :: indent));
       [exact Hnl'|exact Hnl|reflexivity|].
  3,4: rewrite rmatch_opt_skip
         by (apply rmatch_lit_None; reflexivity).
  all: apply rmatch_seq_lit;
       apply (rmatch_seq_plus CSpace _ (nl :: indent));
       [exact Hnl'|exact Hnl|reflexivity|];
       apply rmatch_lit; reflexivity.
Qed.

Lemma snippet_starts_indented indent lead given :
  ∃ body, snippet indent lead given = indent ++ body.
Proof. destruct lead, given; eexists; reflexivity. Qed.

Lemma snippet_length indent lead given :
  4 * length indent + 89 ≤ length (snippet indent lead given).
Proof.
  unfold snippet.
  destruct lead, given; cbn [idiom_lines app indented];
    repeat (rewrite length_app || rewrite length_cons);
    change (length stmt_getwd) with 24; change (length stmt_defer) with 23;
    change (length stmt_tempdir) with 22; change (length stmt_chdir) with 17;
    lia.
Qed.

(** The collapsed text: rule 1 puts the helper's opening line, with the
    captured white space before it, in the place of the idiom. *)
Lemma sub1_snippet indent lead given :
  indent ≠ [] → all_in CSpace indent = true → one_line given = true →
  sub1 (snippet indent lead given) = indent ++ helper_open.
Proof.
  intros Hne Hind Hnote.
  pose proof (idiom_match indent lead given [] Hne Hind Hnote) as Hm.
  rewrite app_nil_r in Hm.
  rewrite (sub_text_match _ _ _ [] [(1, indent)] Hm).
  - rewrite (sub_text_nil _ _ pattern1_no_match_nil).
    change (expand replacement1 [(1, indent)])
      with (indent ++ helper_open ++ []).
    by rewrite !app_nil_r.
  - pose proof (snippet_length indent lead given). simpl. lia.
Qed.

Lemma re_search_skip (r : regex) (a b : text) :
  (∀ a1 a2, a = a1 ++ a2 → a2 ≠ [] → re_match r (a2 ++ b) = None) →
  re_search r b = None → re_search r (a ++ b) = None.
Proof.
  intros H Hb. induction a as [|x a IH]; [exact Hb|].
  change ((x :: a) ++ b) with (x :: a ++ b).
  pose proof (H [] (x :: a) eq_refl ltac:(discriminate)) as H0.
  change ((x :: a) ++ b) with (x :: a ++ b) in H0.
  cbn [re_search]. rewrite H0, IH; [reflexivity|].
  intros a1 a2 -> Hne. by apply (H (x :: a1) a2).
Qed.

Lemma contains_space_skip (l a b : text) :
  stops CSpace l = true → l ≠ [] → all_in CSpace a = true →
  contains l (a ++ b) = contains l b.
Proof.
  intros Hl Hne. induction a as [|x a IH]; intros Ha; [reflexivity|].
  simpl in Ha. apply andb_true_iff in Ha as [Hx Ha].
  change ((x :: a) ++ b) with (x :: a ++ b).
  rewrite contains_cons, space_head_strip_prefix by assumption.
  by apply IH.
Qed.

Section collapsed.
Variable indent : text.
Hypothesis indent_space : all_in CSpace indent = true.

(** No rule matches anywhere in the collapsed text. *)
Lemma collapsed_no_idiom : re_search pattern1 (indent ++ helper_open) = None.
Proof.
  apply re_search_skip; [|by vm_compute].
  intros a1 a2 -> Hne. apply pattern1_no_match; [|reflexivity..].
  unfold all_in in *. rewrite forallb_app in indent_space.
  by apply andb_true_iff in indent_space as [_ H].
Qed.

Lemma collapsed_no_literal (l : text) :
  stops CSpace l = true → l ≠ [] → contains l helper_open = false →
  contains l (indent ++ helper_open) = false.
Proof. intros Hl Hne H. by rewrite contains_space_skip. Qed.

Lemma collapsed_fixed :
  sub5 (sub4 (sub3 (sub2 (indent ++ helper_open)))) = indent ++ helper_open.
Proof.
  literal_form.
  rewrite (sub_lit_absent fresh_call _ (indent ++ helper_open))
    by (apply collapsed_no_literal; solve [reflexivity | discriminate]).
  rewrite (sub_lit_absent (call_head FileExists ++ ddx_yml) _
             (indent ++ helper_open))
    by (apply collapsed_no_literal; solve [reflexivity | discriminate]).
  rewrite (sub_lit_absent (call_head WriteFile ++ ddx_yml) _
             (indent ++ helper_open))
    by (apply collapsed_no_literal; solve [reflexivity | discriminate]).
  rewrite (sub_lit_absent (call_head ReadFile ++ ddx_yml) _
             (indent ++ helper_open))
    by (apply collapsed_no_literal; solve [reflexivity | discriminate]).
  reflexivity.
Qed.

Lemma collapsed_no_brace : 125%N ∉ (indent ++ helper_open).
Proof.
  intros [H|H]%elem_of_app.
  - unfold all_in in indent_space.
    rewrite forallb_forall in indent_space.
    apply list_elem_of_In, indent_space in H. discriminate H.
  - revert H. apply (bool_decide_unpack _). by vm_compute.
Qed.
End collapsed.

(** What follows the idiom is rewritten on its own. *)
Lemma sub1_snippet_app indent lead given post :
  indent ≠ [] → all_in CSpace indent = true → one_line given = true →
  sub1 (snippet indent lead given ++ post)
  = indent ++ helper_open ++ sub1 post.
Proof.
  intros Hne Hind Hnote.
  rewrite (sub_text_match _ _ _ post [(1, indent)]
             (idiom_match indent lead given post Hne Hind Hnote)).
  - change (expand replacement1 [(1, indent)])
      with (indent ++ helper_open ++ []).
    by rewrite app_nil_r, <-app_assoc.
  - pose proof (snippet_length indent lead given).
    rewrite length_app. lia.
Qed.

(** A comment line [// Given: ...] behind white space is copied when no
    match starts inside it. *)
Lemma sub1_given_line (run note : text) :
  all_in CSpace run = true →
  re_search pattern1 (comment_given ++ note) = None →
  sub1 (run ++ comment_given ++ note) = run ++ comment_given ++ note.
Proof.
  intros Hrun Hnote.
  rewrite (space_skip run (comment_given ++ note) Hrun eq_refl eq_refl eq_refl).
  f_equal. by apply sub_text_no_match.
Qed.

(** C3, counterexamples.  Three snippets of the claimed shape that rule 1
    does not replace by the helper line: the four lines without
    indentation, which it leaves alone; the four indented lines followed by
    a comment line [// Given: ...], of which it keeps the comment line; and
    the indented lines with a comment [// Given:] that has no space after
    the colon between the [defer] line and the [tempDir] line, which it
    leaves alone. *)
Lemma boilerplate_collapse_limits :
  let tab := [9%N] in
  let helper := T "WithIsolatedDirectory(t, func(workingDir string) {" in
  let bare :=
    T "origDir, _ := os.Getwd()" ++ [nl] ++ T "defer os.Chdir(origDir)"
      ++ [nl] ++ T "tempDir := t.TempDir()" ++ [nl] ++ T "os.Chdir(tempDir)" in
  let followed :=
    indented tab [ T "origDir, _ := os.Getwd()"; T "defer os.Chdir(origDir)";
                   T "tempDir := t.TempDir()"; T "os.Chdir(tempDir)";
                   T "// Given: a project" ] in
  let terse :=
    indented tab [ T "origDir, _ := os.Getwd()"; T "defer os.Chdir(origDir)";
                   T "// Given:";
                   T "tempDir := t.TempDir()"; T "os.Chdir(tempDir)" ] in
  (snippet [] false None = bare
   ∧ rule1 bare = Ok bare
   ∧ rule1 bare ≠ Ok ([] ++ helper))
  ∧ (followed = snippet tab false None ++ nl :: tab ++ T "// Given: a project"
     ∧ rule1 followed = Ok (tab ++ helper ++ nl :: tab ++ T "// Given: a project")
     ∧ rule1 followed ≠ Ok (tab ++ helper))
  ∧ (rule1 terse = Ok terse
     ∧ rule1 terse ≠ Ok (tab ++ helper)).
Proof. by vm_compute. Qed.

(** C3, as amended.  For every snippet made of the four statements, each on
    its own line behind the same indentation of one or more white-space
    characters, with or without the comment line [// Save and restore working
    directory] before them and a comment line [// Given: ] followed by any
    text, between the [defer] line and the [tempDir] line, rule 1 replaces
    the whole snippet by the indentation followed by
    [WithIsolatedDirectory(t, func(workingDir string) {]; the output, which
    is also the output of the whole chain, has no closing brace.  What
    follows the snippet is not part of the match and is rewritten on its
    own: a comment line [// Given: ...] after the four statements stays in
    the output, behind the helper line. *)
Theorem boilerplate_collapse (indent : text) (lead : bool)
    (given : option text) :
  indent ≠ [] → all_in CSpace indent = true → one_line given = true →
  rule1 (snippet indent lead given)
  = Ok (indent ++ T "WithIsolatedDirectory(t, func(workingDir string) {")
  ∧ (125%N ∉ indent ++ T "WithIsolatedDirectory(t, func(workingDir string) {")
  ∧ rewrite_text (snippet indent lead given)
    = Ok (indent ++ T "WithIsolatedDirectory(t, func(workingDir string) {",
          true)
  ∧ (∀ post,
       rule1 (snippet indent lead given ++ post)
       = Ok (indent ++ T "WithIsolatedDirectory(t, func(workingDir string) {"
               ++ sub_text pattern1 replacement1 post))
  ∧ (∀ note,
       re_search pattern1 (T "// Given: " ++ note) = None →
       rule1 (snippet indent lead given ++ nl :: indent
                ++ T "// Given: " ++ note)
       = Ok (indent ++ T "WithIsolatedDirectory(t, func(workingDir string) {"
               ++ nl :: indent ++ T "// Given: " ++ note)).
Proof.
  intros Hne Hind Hnote.
  change (T "WithIsolatedDirectory(t, func(workingDir string) {")
    with helper_open.
  change (T "// Given: ") with comment_given.
  split; [|split; [|split; [|split]]].
  - rewrite rule1_eq. f_equal. by apply sub1_snippet.
  - by apply collapsed_no_brace.
  - rewrite rewrite_text_eq. cbv zeta.
    rewrite sub1_snippet, collapsed_fixed by assumption.
    rewrite bool_decide_eq_false_2; [reflexivity|].
    intros E. apply (f_equal length) in E.
    pose proof (snippet_length indent lead given) as Hlen.
    rewrite length_app in E. change (length helper_open) with 50 in E. lia.
  - intros post. rewrite rule1_eq. f_equal. by apply sub1_snippet_app.
  - intros note Hn. rewrite rule1_eq. f_equal.
    rewrite sub1_snippet_app by assumption. do 2 f_equal.
    exact (sub1_given_line (nl :: indent) note Hind Hn).
Qed.

Lemma boilerplate_collapse_witness :
  rule1 (snippet (T "	") true (Some (T "a temporary directory")))
  = Ok (T "	" ++ T "WithIsolatedDirectory(t, func(workingDir string) {").
Proof.
  destruct (boilerplate_collapse (T "	") true
              (Some (T "a temporary directory")))
    as [H _]; [discriminate|reflexivity|reflexivity|exact H].
Defined.

(** C6.  For the snippets of C3 the output of the chain is the collapsed
    line; run on that output, rule 1 finds no match and returns it as it
    is, and the whole chain returns it with the changed flag false. *)
Theorem collapse_not_rematched (indent : text) (lead : bool)
    (given : option text) :
  indent ≠ [] → all_in CSpace indent = true → one_line given = true →
  let out := indent ++ T "WithIsolatedDirectory(t, func(workingDir string) {" in
  rewrite_text (snippet indent lead given) = Ok (out, true)
  ∧ re_search pattern1 out = None
  ∧ rule1 out = Ok out
  ∧ rewrite_text out = Ok (out, false).
Proof.
  intros Hne Hind Hnote out. subst out.
  change (T "WithIsolatedDirectory(t, func(workingDir string) {")
    with helper_open.
  pose proof (collapsed_no_idiom indent Hind) as Hno.
  assert (Hsub : sub1 (indent ++ helper_open) = indent ++ helper_open)
    by (by apply sub_text_no_match).
  split; [|split; [exact Hno|split]].
  - rewrite rewrite_text_eq. cbv zeta.
    rewrite sub1_snippet, collapsed_fixed by assumption.
    rewrite bool_decide_eq_false_2; [reflexivity|].
    intros E. apply (f_equal length) in E.
    pose proof (snippet_length indent lead given) as Hlen.
    rewrite length_app in E. change (length helper_open) with 50 in E. lia.
  - rewrite rule1_eq. by f_equal.
  - rewrite rewrite_text_eq. cbv zeta.
    rewrite Hsub, collapsed_fixed by assumption.
    by rewrite bool_decide_eq_true_2.
Qed.

Lemma collapse_not_rematched_witness :
  rewrite_text (T "    " ++ T "WithIsolatedDirectory(t, func(workingDir string) {")
  = Ok (T "    " ++ T "WithIsolatedDirectory(t, func(workingDir string) {",
        false).
Proof.
  apply (collapse_not_rematched (T "    ") false None);
    [discriminate|reflexivity|reflexivity].
Defined.

(** C10.  A match of the first pattern starts with a white-space
    character.  So when the four statements, separated by white space, stand
    at the very start of a text, no match starts there, and rule 1 copies
    them as they are. *)
Theorem unindented_idiom_not_matched (w1 w2 w3 rest : text) :
  all_in CSpace w1 = true → all_in CSpace w2 = true →
  all_in CSpace w3 = true →
  let idiom :=
    stmt_getwd ++ w1 ++ stmt_defer ++ w2 ++ stmt_tempdir ++ w3 ++ stmt_chdir in
  (∀ s, is_Some (re_match pattern1 s) →
        ∃ x s', s = x :: s' ∧ is_space x = true)
  ∧ re_match pattern1 (idiom ++ rest) = None
  ∧ rule1 (idiom ++ rest)
    = Ok (idiom ++ sub_text pattern1 replacement1 rest).
Proof.
  intros H1 H2 H3 idiom. subst idiom. split; [|split].
  - intros [|x s] Hs.
    + rewrite pattern1_no_match_nil in Hs. by destruct Hs.
    + exists x, s. split; [reflexivity|].
      destruct (is_space x) eqn:Hx; [reflexivity|].
      rewrite (pattern1_no_match_cons x s Hx) in Hs. by destruct Hs.
  - rewrite <-!app_assoc.
    apply (quiet_at_no_match stmt_getwd); [discriminate|reflexivity].
  - rewrite rule1_eq. f_equal. rewrite <-!app_assoc.
    rewrite (quiet_skip stmt_getwd) by reflexivity.
    rewrite (space_skip w1) by (assumption || reflexivity).
    rewrite (quiet_skip stmt_defer) by reflexivity.
    rewrite (space_skip w2) by (assumption || reflexivity).
    rewrite (quiet_skip stmt_tempdir) by reflexivity.
    rewrite (space_skip w3) by (assumption || reflexivity).
    rewrite (quiet_skip stmt_chdir) by reflexivity.
    reflexivity.
Qed.

Lemma unindented_idiom_not_matched_witness :
  rule1 (snippet [] false None ++ [nl] ++ T "}")
  = Ok (snippet [] false None ++ [nl] ++ T "}").
Proof.
  pose proof (unindented_idiom_not_matched [nl] [nl] [nl] ([nl] ++ T "}")
                eq_refl eq_refl eq_refl) as (_ & _ & H).
  exact H.
Defined.

(** * Further properties *)

(** ** What the literal rules leave behind *)

Lemma inert_contains (m rp out : text) :
  inert m rp = true → contains m (rp ++ out) = contains m out.
Proof.
  induction rp as [|x rp IH]; [reflexivity|].
  cbn [inert]. intros [Hc Hi]%andb_true_iff.
  change ((x :: rp) ++ out) with (x :: rp ++ out).
  rewrite contains_cons.
  change (x :: rp ++ out) with ((x :: rp) ++ out).
  rewrite (clash_strip_prefix m (x :: rp) out Hc). by apply IH.
Qed.

Lemma is_prefix_app (p l rest : text) :
  is_prefix p l = true → is_Some (strip_prefix p (l ++ rest)).
Proof.
  unfold is_prefix. destruct (strip_prefix p l) as [l'|] eqn:E; [|done].
  intros _. apply strip_prefix_Some in E as ->.
  rewrite <-app_assoc, strip_prefix_app. by eexists.
Qed.

Lemma contains_app_r (m a b : text) :
  contains m (a ++ b) = false → contains m b = false.
Proof.
  rewrite !contains_false. intros H pre post ->.
  apply (H (a ++ pre) post). by rewrite <-app_assoc.
Qed.

Lemma contains_cons_false (m : text) (x : char) (s : text) :
  contains m (x :: s) = false →
  strip_prefix m (x :: s) = None ∧ contains m s = false.
Proof.
  rewrite contains_cons. by destruct (strip_prefix m (x :: s)).
Qed.

Lemma strip_prefix_cons_inv (m : text) (x : char) (s : text) :
  m ≠ [] → is_Some (strip_prefix m (x :: s)) →
  head m = Some x ∧ is_Some (strip_prefix (tail m) s).
Proof.
  destruct m as [|c m]; [done|]. simpl. intros _.
  destruct (N.eqb_spec c x) as [->|]; [done|]. by intros [].
Qed.

Lemma strip_prefix_cons_intro (m : text) (x : char) (s : text) :
  head m = Some x → is_Some (strip_prefix (tail m) s) →
  is_Some (strip_prefix m (x :: s)).
Proof.
  destruct m as [|c m]; [done|]. simpl. intros [= ->].
  by rewrite N.eqb_refl.
Qed.

Section literal_traces.
Variables (l rp : text).
Hypothesis l_nonempty : l ≠ [].

Local Abbreviation sub := (sub_text (RLit l) [TChars rp]).

Lemma sub_lit_reflect (s p : text) :
  reflects l rp p = true →
  is_Some (strip_prefix p (sub s)) → is_Some (strip_prefix p s).
Proof.
  revert p.
  apply (sub_lit_ind l rp l_nonempty
           (λ s out, ∀ p, reflects l rp p = true →
                          is_Some (strip_prefix p out) →
                          is_Some (strip_prefix p s))).
  - intros p _ H. exact H.
  - intros rest out _ [|a p] Hr H; [by eexists|].
    cbn [reflects] in Hr. apply andb_true_iff in Hr as [Hr _].
    apply orb_true_iff in Hr as [Hr|Hr].
    + rewrite (clash_strip_prefix _ _ out Hr) in H. by destruct H.
    + by apply is_prefix_app.
  - intros x s' out _ IH [|a p] Hr H; [by eexists|].
    cbn [reflects] in Hr. apply andb_true_iff in Hr as [_ Hr].
    simpl in *. destruct (a =? x)%N; [|exact H]. by apply IH.
Qed.

(** A text that [m] does not occur in still has no occurrence of [m] after
    the pass. *)
Lemma sub_lit_keeps_absent (m s : text) :
  inert m rp = true → reflects l rp (tail m) = true →
  contains m s = false → contains m (sub s) = false.
Proof.
  intros Hi Hr. remember (length s) as n eqn:Hn. revert s Hn.
  induction n as [n IH] using lt_wf_ind. intros s -> Hs.
  destruct (strip_prefix l s) as [rest|] eqn:E.
  - apply strip_prefix_Some in E as ->.
    rewrite sub_lit_match, inert_contains by assumption.
    apply (IH (length rest)); [|reflexivity|by eapply contains_app_r].
    rewrite length_app. destruct l; simpl; [done|lia].
  - destruct s as [|x s].
    + by rewrite sub_lit_nil.
    + rewrite sub_lit_copy by assumption.
      apply contains_cons_false in Hs as [Hx Hs].
      rewrite contains_cons.
      rewrite (IH (length s)) by (simpl; lia || done).
      destruct (strip_prefix m (x :: sub s)) as [r|] eqn:E'; [|reflexivity].
      exfalso. destruct m as [|c m']; [done|]. simpl in Hx, E', Hr.
      destruct (c =? x)%N; [|done].
      destruct (sub_lit_reflect s m' Hr) as [r' Hr']; [by eexists|].
      by rewrite Hr' in Hx.
Qed.

(** The pass leaves no occurrence of the text it looks for. *)
Lemma sub_lit_removes_all (s : text) :
  inert l rp = true → reflects l rp (tail l) = true →
  contains l (sub s) = false.
Proof.
  intros Hi Hr. remember (length s) as n eqn:Hn. revert s Hn.
  induction n as [n IH] using lt_wf_ind. intros s ->.
  destruct (strip_prefix l s) as [rest|] eqn:E.
  - apply strip_prefix_Some in E as ->.
    rewrite sub_lit_match, inert_contains by assumption.
    apply (IH (length rest)); [|reflexivity].
    rewrite length_app. destruct l; simpl; [done|lia].
  - destruct s as [|x s].
    + rewrite sub_lit_nil by assumption. simpl. by destruct l.
    + rewrite sub_lit_copy by assumption. rewrite contains_cons.
      rewrite (IH (length s)) by (simpl; lia || done).
      destruct (strip_prefix l (x :: sub s)) as [r|] eqn:E'; [|reflexivity].
      exfalso.
      destruct (strip_prefix_cons_inv l x (sub s) l_nonempty) as [Hh Ht];
        [by eexists|].
      apply (sub_lit_reflect s _ Hr) in Ht.
      destruct (strip_prefix_cons_intro l x s Hh Ht) as [r' Hr'].
      by rewrite Hr' in E.
Qed.
End literal_traces.

Lemma rewrite_text_fixed (s : text) :
  rewrite_text s = Ok (fixed_text s, changes s).
Proof. exact (rewrite_text_eq s). Qed.

(** After the four passes of fixed texts none of the four is left. *)
Lemma literal_triggers_absent (t0 : text) :
  let out := sub5 (sub4 (sub3 (sub2 t0))) in
  contains fresh_call out = false
  ∧ contains exists_call out = false
  ∧ contains write_call out = false
  ∧ contains read_call out = false.
Proof.
  cbv zeta. unfold exists_call, write_call, read_call. literal_form.
  repeat split.
  - do 3 (apply sub_lit_keeps_absent; [done|by vm_compute..|]).
    apply sub_lit_removes_all; [done|by vm_compute..].
  - do 2 (apply sub_lit_keeps_absent; [done|by vm_compute..|]).
    apply sub_lit_removes_all; [done|by vm_compute..].
  - apply sub_lit_keeps_absent; [done|by vm_compute..|].
    apply sub_lit_removes_all; [done|by vm_compute..].
  - apply sub_lit_removes_all; [done|by vm_compute..].
Qed.

(** X1.  Whatever the text, the output of the rule chain contains none of
    the four fixed texts that rules 2 and 3 look for: each pass removes
    every occurrence of its own text and no later pass brings one back. *)
Theorem literal_triggers_eliminated (s : text) :
  rewrite_text s = Ok (fixed_text s, changes s)
  ∧ contains fresh_call (fixed_text s) = false
  ∧ contains exists_call (fixed_text s) = false
  ∧ contains write_call (fixed_text s) = false
  ∧ contains read_call (fixed_text s) = false.
Proof.
  split; [exact (rewrite_text_fixed s)|].
  exact (literal_triggers_absent (sub1 s)).
Qed.

Lemma literal_rules_fixed (t0 : text) :
  contains fresh_call t0 = false → contains exists_call t0 = false →
  contains write_call t0 = false → contains read_call t0 = false →
  sub5 (sub4 (sub3 (sub2 t0))) = t0.
Proof.
  intros H2 H3 H4 H5. literal_form.
  rewrite (sub_lit_absent fresh_call _ _ H2).
  rewrite (sub_lit_absent _ _ _ H3).
  rewrite (sub_lit_absent _ _ _ H4).
  by rewrite (sub_lit_absent _ _ _ H5).
Qed.

(** X2.  The output of the chain is a fixed point of the chain unless rule 1
    finds a new match in it: when [re.search] finds no match of the first
    pattern in the output, a second run returns it with the changed flag
    false. *)
Theorem second_pass_changes_only_by_idiom (s : text) :
  re_search pattern1 (fixed_text s) = None →
  rewrite_text (fixed_text s) = Ok (fixed_text s, false).
Proof.
  intros H1. rewrite rewrite_text_fixed.
  assert (contains fresh_call (fixed_text s) = false
          ∧ contains exists_call (fixed_text s) = false
          ∧ contains write_call (fixed_text s) = false
          ∧ contains read_call (fixed_text s) = false)
    as (H2 & H3 & H4 & H5) by exact (literal_triggers_absent (sub1 s)).
  assert (E : fixed_text (fixed_text s) = fixed_text s).
  { unfold fixed_text at 1.
    rewrite (sub_text_no_match _ _ _ H1). by apply literal_rules_fixed. }
  unfold changes. rewrite E. by rewrite bool_decide_eq_true_2.
Qed.

Lemma second_pass_changes_only_by_idiom_witness :
  rewrite_text (fixed_text (T "a := " ++ fresh_call ++ T "; os.ReadFile("
                              ++ ddx_yml ++ T ")"))
  = Ok (fixed_text (T "a := " ++ fresh_call ++ T "; os.ReadFile("
                      ++ ddx_yml ++ T ")"), false).
Proof.
  apply (second_pass_changes_only_by_idiom
           (T "a := " ++ fresh_call ++ T "; os.ReadFile(" ++ ddx_yml ++ T ")")).
  by vm_compute.
Defined.

(** X3.  When rule 1 finds no match, the changed flag tells whether one of
    the four fixed texts of rules 2 and 3 occurs in the input. *)
Theorem changed_iff_literal_trigger (s : text) :
  re_search pattern1 s = None →
  rewrite_text s
  = Ok (fixed_text s,
        contains fresh_call s || contains exists_call s
        || contains write_call s || contains read_call s).
Proof.
  intros H1. rewrite rewrite_text_fixed. f_equal. f_equal.
  unfold changes, fixed_text.
  rewrite (sub_text_no_match _ _ _ H1).
  assert (Hgrow : ∀ t1 : text,
             length s < length t1 → t1 ≠ s) by (intros t1 Hl ->; lia).
  unfold exists_call, write_call, read_call. literal_form.
  destruct (contains fresh_call s) eqn:H2.
  { rewrite bool_decide_eq_false_2; [reflexivity|]. apply Hgrow.
    eapply Nat.lt_le_trans; [|apply literal_rules_length].
    apply sub_lit_length_lt; [done|vm_compute; lia|done]. }
  rewrite (sub_lit_absent fresh_call _ _ H2).
  destruct (contains (call_head FileExists ++ ddx_yml) s) eqn:H3.
  { rewrite bool_decide_eq_false_2; [reflexivity|]. apply Hgrow.
    eapply Nat.lt_le_trans;
      [apply (sub_lit_length_lt (call_head FileExists ++ ddx_yml)
                (call_head FileExists ++ join_call));
       [done|vm_compute; lia|done]|].
    etrans; [|apply sub_lit_length_le; [done|vm_compute; lia]].
    apply sub_lit_length_le; [done|vm_compute; lia]. }
  rewrite (sub_lit_absent _ _ _ H3).
  destruct (contains (call_head WriteFile ++ ddx_yml) s) eqn:H4.
  { rewrite bool_decide_eq_false_2; [reflexivity|]. apply Hgrow.
    eapply Nat.lt_le_trans;
      [apply (sub_lit_length_lt (call_head WriteFile ++ ddx_yml)
                (call_head WriteFile ++ join_call));
       [done|vm_compute; lia|done]|].
    apply sub_lit_length_le; [done|vm_compute; lia]. }
  rewrite (sub_lit_absent _ _ _ H4).
  destruct (contains (call_head ReadFile ++ ddx_yml) s) eqn:H5.
  { rewrite bool_decide_eq_false_2; [reflexivity|]. apply Hgrow.
    apply (sub_lit_length_lt (call_head ReadFile ++ ddx_yml)
             (call_head ReadFile ++ join_call));
      [done|vm_compute; lia|done]. }
  rewrite (sub_lit_absent _ _ _ H5).
  by rewrite bool_decide_eq_true_2.
Qed.

Lemma changed_iff_literal_trigger_witness :
  rewrite_text (T "data, _ := os.ReadFile(" ++ ddx_yml ++ T ")")
  = Ok (fixed_text (T "data, _ := os.ReadFile(" ++ ddx_yml ++ T ")"), true).
Proof.
  apply (changed_iff_literal_trigger
           (T "data, _ := os.ReadFile(" ++ ddx_yml ++ T ")")).
  by vm_compute.
Defined.

(** X4.  Rules 2 and 3 never change the balance of parentheses: on every
    text the output of the chain has the same excess of opening over closing
    parentheses as the output of rule 1. *)
Theorem literal_rules_keep_parentheses (s : text) :
  paren_excess (fixed_text s)
  = paren_excess (sub_text pattern1 replacement1 s).
Proof.
  unfold fixed_text. generalize (sub1 s). intros t0. literal_form.
  rewrite !sub_lit_paren_excess; done.
Qed.

(** ** The matcher and the language of a pattern *)

Lemma matches_min_len (r : regex) (m : text) :
  matches r m → min_len r ≤ length m.
Proof.
  induction 1; simpl; try lia.
  - destruct m; [done|simpl; lia].
  - rewrite length_app. lia.
Qed.

Lemma star_class_sound {A} c s (j : text → option A) res :
  star_class c s j = Some res →
  ∃ m s', s = m ++ s' ∧ all_in c m = true ∧ j s' = Some res.
Proof.
  induction s as [|x s IH]; simpl.
  - intros H. by exists [], [].
  - destruct (in_class c x) eqn:Hx; [|intros H; by exists [], (x :: s)].
    destruct (star_class c s j) as [res'|] eqn:E.
    + intros [= ->]. destruct (IH eq_refl) as (m & s' & -> & Hm & Hj).
      exists (x :: m), s'. split; [done|]. simpl. by rewrite Hx.
    + intros H. by exists [], (x :: s).
Qed.

(** Soundness: what the matcher takes from the input is in the language of
    the pattern; a pattern without groups passes the groups on as they
    are. *)
Lemma rmatch_sound {A} r s g (k : text → caps → option A) res :
  rmatch r s g k = Some res →
  ∃ m s' g', s = m ++ s' ∧ matches r m ∧ k s' g' = Some res
             ∧ (ngroups r = 0 → g' = g).
Proof.
  revert s g k. induction r as [l|c|c|n r IH|r IH|r1 IH1 r2 IH2];
    intros s g k; simpl.
  - destruct (strip_prefix l s) as [s'|] eqn:E; [|done].
    intros Hk. apply strip_prefix_Some in E as ->.
    exists l, s', g. split; [done|]. split; [apply matches_lit|done].
  - intros (m & s' & -> & Hm & Hk)%star_class_sound.
    exists m, s', g. split; [done|]. split; [by apply matches_star|done].
  - destruct s as [|x s]; [done|]. destruct (in_class c x) eqn:Hx; [|done].
    intros (m & s' & -> & Hm & Hk)%star_class_sound.
    exists (x :: m), s', g. split; [done|]. split; [|done].
    apply matches_plus; [done|]. simpl. by rewrite Hx.
  - intros (m & s' & g' & -> & Hm & Hk & _)%IH.
    eexists m, s', _. split; [done|]. split; [by apply matches_group|].
    split; [exact Hk|done].
  - destruct (rmatch r s g k) as [res'|] eqn:E.
    + intros [= ->]. apply IH in E as (m & s' & g' & -> & Hm & Hk & Hg).
      exists m, s', g'. split; [done|].
      split; [by apply matches_opt_some|done].
    + intros Hk. exists [], s, g. split; [done|].
      split; [apply matches_opt_none|done].
  - intros (m1 & s1 & g1 & -> & Hm1 & H2 & Hg1)%IH1.
    apply IH2 in H2 as (m2 & s2 & g2 & -> & Hm2 & Hk & Hg2).
    exists (m1 ++ m2), s2, g2. rewrite <-app_assoc.
    split; [done|]. split; [by apply matches_seq|]. split; [done|].
    intros Hn. rewrite Hg2, Hg1 by lia. done.
Qed.

Lemma star_class_complete {A} c (m s' : text) (j : text → option A) :
  all_in c m = true → is_Some (j s') → is_Some (star_class c (m ++ s') j).
Proof.
  intros Hm Hj. induction m as [|x m IH]; simpl in *.
  - destruct s' as [|y s']; simpl; [done|].
    destruct (in_class c y); [|done].
    by destruct (star_class c s' j).
  - apply andb_true_iff in Hm as [-> Hm].
    destruct (IH Hm) as [res ->]. by eexists.
Qed.

(** Completeness: when a prefix of the input is in the language of the
    pattern and the continuation accepts what follows it, the matcher finds
    a match. *)
Lemma rmatch_complete {A} r (m s' : text) g (k : text → caps → option A) :
  matches r m → (∀ g', is_Some (k s' g')) →
  is_Some (rmatch r (m ++ s') g k).
Proof.
  intros Hm. revert s' g k.
  induction Hm as [l|c m Hm|c m Hne Hm|n r m _ IH|r m _ IH|r
                  |r1 r2 m1 m2 _ IH1 _ IH2]; intros s' g k Hk; simpl.
  - by rewrite strip_prefix_app.
  - by apply star_class_complete.
  - destruct m as [|x m]; [done|]. simpl in *.
    apply andb_true_iff in Hm as [-> Hm]. by apply star_class_complete.
  - apply IH. intros g'. apply Hk.
  - destruct (IH s' g k Hk) as [res ->]. by eexists.
  - destruct (rmatch r s' g k); [by eexists|apply Hk].
  - rewrite <-app_assoc. apply IH1. intros g'. by apply IH2.
Qed.

Lemma re_match_matches (r : regex) (s : text) :
  is_Some (re_match r s) ↔ ∃ m rest, s = m ++ rest ∧ matches r m.
Proof.
  split.
  - intros [res (m & s' & g' & -> & Hm & _)%rmatch_sound]. by exists m, s'.
  - intros (m & rest & -> & Hm). by apply rmatch_complete.
Qed.

Lemma re_search_matches (r : regex) (s : text) :
  re_search r s = None
  ↔ ∀ pre m post, s = pre ++ m ++ post → ¬ matches r m.
Proof.
  split.
  - induction s as [|x s IH]; intros Hs pre m post E Hm.
    + simpl in Hs. destruct (re_match r []) as [[rest g]|] eqn:E0; [done|].
      symmetry in E. apply app_eq_nil in E as [-> [-> ->]%app_eq_nil].
      assert (is_Some (re_match r [])) as [? H]; [|congruence].
      apply re_match_matches. by exists [], [].
    + apply re_search_None_cons in Hs as [H0 Hs].
      destruct pre as [|y pre].
      * assert (is_Some (re_match r (x :: s))) as [? H]; [|congruence].
        apply re_match_matches. exists m, post. by rewrite E.
      * injection E as -> E. by apply (IH Hs pre m post).
  - intros H. induction s as [|x s IH].
    + simpl. destruct (re_match r []) as [[rest g]|] eqn:E; [|done].
      assert (is_Some (re_match r [])) as (m & rest' & E' & Hm)%re_match_matches
        by (by eexists).
      destruct (H [] m rest' E' Hm).
    + cbn [re_search].
      destruct (re_match r (x :: s)) as [[rest g]|] eqn:E.
      * assert (is_Some (re_match r (x :: s)))
          as (m & rest' & E' & Hm)%re_match_matches by (by eexists).
        destruct (H [] m rest' E' Hm).
      * rewrite IH; [done|]. intros pre m post -> Hm.
        by apply (H (x :: pre) m post).
Qed.

(** ** The matches of the first pattern *)

Lemma pattern1_match_shape (s rest : text) (g : caps) :
  re_match pattern1 s = Some (rest, g) →
  ∃ w body, s = w ++ body ++ rest ∧ w ≠ [] ∧ all_in CSpace w = true
            ∧ matches after_indent body ∧ g = [(1, w)].
Proof.
  unfold re_match. rewrite pattern1_eq, rmatch_seq, rmatch_group.
  intros (w & s1 & g1 & -> & Hw & H & Hg1)%rmatch_sound.
  apply rmatch_sound in H as (body & s2 & g2 & -> & Hb & [= -> <-] & Hg2).
  rewrite (Hg1 eq_refl) in Hg2. rewrite take_app_minus in Hg2.
  exists w, body. unfold ws in Hw. inversion Hw; subst.
  split; [done|]. split; [done|]. split; [done|]. split; [done|].
  apply Hg2. by vm_compute.
Qed.

(** X5.  A match of the first pattern is a run of one or more white-space
    characters, which is what group 1 captures, followed by text of the
    shape of the idiom, 89 characters or more; the replacement for it is
    the captured run followed by the opening line of the helper. *)
Theorem boilerplate_match_shape (s rest : text) (g : caps) :
  re_match pattern1 s = Some (rest, g) →
  ∃ w body, s = w ++ body ++ rest
            ∧ space_run w = true
            ∧ matches after_indent body
            ∧ 89 ≤ length body
            ∧ g = [(1, w)]
            ∧ expand replacement1 g
              = w ++ T "WithIsolatedDirectory(t, func(workingDir string) {".
Proof.
  intros (w & body & -> & Hne & Hw & Hb & ->)%pattern1_match_shape.
  exists w, body. split; [done|]. split; [by destruct w|].
  split; [done|]. split; [exact (matches_min_len _ _ Hb)|]. split; [done|].
  change (expand replacement1 [(1, w)])
    with (w ++ T "WithIsolatedDirectory(t, func(workingDir string) {" ++ []).
  by rewrite app_nil_r.
Qed.

Lemma boilerplate_match_shape_witness :
  ∃ w body,
    snippet (T "  ") true None ++ T " // next" = w ++ body ++ T " // next"
    ∧ space_run w = true
    ∧ matches after_indent body
    ∧ 89 ≤ length body
    ∧ [(1, T "  ")] = [(1, w)]
    ∧ expand replacement1 [(1, T "  ")]
      = w ++ T "WithIsolatedDirectory(t, func(workingDir string) {".
Proof.
  apply (boilerplate_match_shape
           (snippet (T "  ") true None ++ T " // next") (T " // next")
           [(1, T "  ")]).
  by vm_compute.
Defined.

Lemma sub_text_shrinks (r : regex) (t : template) :
  (∀ s rest g, re_match r s = Some (rest, g) →
               length (expand t g) + length rest < length s) →
  ∀ s, length (sub_text r t s) ≤ length s
       ∧ (is_Some (re_search r s) → length (sub_text r t s) < length s).
Proof.
  intros Hr s. remember (length s) as n eqn:Hn. revert s Hn.
  induction n as [n IH] using lt_wf_ind. intros s ->.
  destruct (re_match r s) as [[rest g]|] eqn:E.
  - pose proof (Hr s rest g E) as Hlen.
    rewrite (sub_text_match r t s rest g E) by lia.
    rewrite length_app.
    destruct (IH (length rest) ltac:(lia) rest eq_refl) as [Hle _]. lia.
  - destruct s as [|x s].
    + rewrite (sub_text_nil r t E). split; [done|].
      simpl. rewrite E. by intros [].
    + rewrite (sub_text_cons r t x s E).
      destruct (IH (length s) ltac:(simpl; lia) s eq_refl) as [Hle Hlt].
      split; [simpl; lia|].
      cbn [re_search]. rewrite E. intros Hs. simpl.
      assert (is_Some (re_search r s)) as Hs'
        by (by destruct (re_search r s) as [[[??]?]|]).
      specialize (Hlt Hs'). lia.
Qed.

(** X6.  Rule 1 never makes a text longer, and it returns the text as it
    was exactly when [re.search] finds no match of the first pattern, which
    is when no part of the text has the shape of an indented idiom. *)
Theorem rule1_unchanged_iff_no_idiom (s : text) :
  length (sub_text pattern1 replacement1 s) ≤ length s
  ∧ (sub_text pattern1 replacement1 s = s ↔ re_search pattern1 s = None)
  ∧ (re_search pattern1 s = None
     ↔ ∀ pre m post, s = pre ++ m ++ post → ¬ matches pattern1 m).
Proof.
  assert (Hr : ∀ s rest g, re_match pattern1 s = Some (rest, g) →
                 length (expand replacement1 g) + length rest < length s).
  { intros s0 rest g (w & body & -> & _ & _ & Hb & ->)%pattern1_match_shape.
    assert (Hlen : 89 ≤ length body) by exact (matches_min_len _ _ Hb).
    change (expand replacement1 [(1, w)]) with (w ++ helper_open ++ []).
    rewrite !length_app. change (length helper_open) with 50.
    cbn [length]. lia. }
  destruct (sub_text_shrinks pattern1 replacement1 Hr s) as [Hle Hlt].
  split; [exact Hle|]. split; [|apply re_search_matches].
  split.
  - intros E. destruct (re_search pattern1 s) eqn:Hs; [|reflexivity].
    rewrite E in Hlt. specialize (Hlt ltac:(by eexists)). lia.
  - apply sub_text_no_match.
Qed.

(** *** The idiom with any white space *)





(** * Files and runs *)

Lemma reads_app tr1 tr2 : reads (tr1 ++ tr2) = reads tr1 ++ reads tr2.
Proof. apply omap_app. Qed.

Lemma writes_app tr1 tr2 : writes (tr1 ++ tr2) = writes tr1 ++ writes tr2.
Proof. apply omap_app. Qed.

(** ** Line ends *)

Lemma universal_newlines_no_cr (raw : text) : no_cr (universal_newlines raw).
Proof.
  unfold no_cr. remember (length raw) as n eqn:Hn. revert raw Hn.
  induction n as [n IH] using lt_wf_ind. intros [|x raw] ->; [constructor|].
  cbn [universal_newlines]. destruct (N.eqb_spec x 13) as [->|Hx].
  - constructor; [discriminate|].
    destruct raw as [|y raw]; [constructor|].
    destruct (y =? 10)%N.
    + apply (IH (length raw)); [simpl; lia|reflexivity].
    + apply (IH (length (y :: raw))); [simpl; lia|reflexivity].
  - constructor; [exact Hx|].
    apply (IH (length raw)); [simpl; lia|reflexivity].
Qed.

Lemma universal_newlines_id (s : text) : no_cr s → universal_newlines s = s.
Proof.
  induction 1 as [|x s Hx _ IH]; [reflexivity|].
  cbn [universal_newlines]. destruct (N.eqb_spec x 13) as [->|_]; [done|].
  by rewrite IH.
Qed.

(** A substitution whose replacements bring no character outside [P] keeps
    a text inside [P]. *)
Lemma sub_text_Forall (P : char → Prop) (r : regex) (t : template) :
  0 < min_len r →
  (∀ s rest g, re_match r s = Some (rest, g) → Forall P s →
               Forall P (expand t g)) →
  ∀ s, Forall P s → Forall P (sub_text r t s).
Proof.
  intros Hr Hex s. remember (length s) as n eqn:Hn. revert s Hn.
  induction n as [n IH] using lt_wf_ind. intros s -> Hs.
  destruct (re_match r s) as [[rest g]|] eqn:E.
  - pose proof (re_match_shorter r s rest g Hr E) as Hlen.
    rewrite (sub_text_match r t s rest g E Hlen).
    apply Forall_app. split; [by apply (Hex s rest g)|].
    apply (IH (length rest) Hlen rest eq_refl).
    unfold re_match in E.
    apply rmatch_sound in E as (m & s' & g' & -> & _ & [= -> _] & _).
    by apply Forall_app in Hs as [_ Hs].
  - destruct s as [|x s].
    + by rewrite (sub_text_nil r t E).
    + rewrite (sub_text_cons r t x s E).
      apply Forall_cons in Hs as [Hx Hs]. constructor; [exact Hx|].
      by apply (IH (length s) ltac:(simpl; lia) s eq_refl).
Qed.

(** The rule chain brings no carriage return into a text. *)
Lemma fixed_text_no_cr (c : text) : no_cr c → no_cr (fixed_text c).
Proof.
  intros Hc. unfold fixed_text, no_cr.
  assert (Hlit : ∀ (rp : text) (g : caps),
            Forall (λ x : char, x ≠ 13%N) rp →
            Forall (λ x : char, x ≠ 13%N) (expand [TChars rp] g)).
  { intros rp g H. change (expand [TChars rp] g) with (rp ++ []).
    by rewrite app_nil_r. }
  do 4 (apply sub_text_Forall;
        [vm_compute; lia
        |intros s rest g _ _; apply Hlit;
         apply (bool_decide_unpack _); by vm_compute|]).
  apply sub_text_Forall; [vm_compute; lia| |exact Hc].
  intros s rest g (w & body & -> & _ & _ & _ & ->)%pattern1_match_shape Hs.
  change (expand replacement1 [(1, w)]) with (w ++ helper_open ++ []).
  apply Forall_app in Hs as [Hw _]. apply Forall_app. split; [exact Hw|].
  apply (bool_decide_unpack _). by vm_compute.
Qed.

(** ** One call of [fix_test_file] *)

Lemma read_file_content (p c : text) (w : world) :
  content_of w p = Some c →
  read_file p w = (Ok c, log (EvRead p c) w).
Proof.
  unfold content_of, read_file. destruct (may_read w _); [|done].
  destruct (disk w !! _) as [[raw|]|]; [|done..]. by intros [= <-].
Qed.

Lemma read_file_none (p : text) (w : world) :
  content_of w p = None → ∃ e, read_file p w = (Raise e, w).
Proof.
  unfold content_of, read_file. destruct (may_read w _); [|by eexists].
  destruct (disk w !! _) as [[raw|]|]; [done|by eexists..].
Qed.

(** What one call does to a file that can be read, by the opens that
    succeed and the writes that break off. *)
Lemma fix_test_file_read (p c : text) (w : world) :
  content_of w p = Some c →
  fix_test_file p w
  = let b := p ++ backup_suffix in
    let w0 := log (EvRead p c) w in
    if changes c then
      if may_write w (file_of w b) then
        match write_stops w (file_of w b) c with
        | Some part => (Raise OSError, log (EvWrite b part) (store b part w0))
        | None =>
            let w1 := log (EvWrite b c) (store b c w0) in
            if may_write w (file_of w p) then
              match write_stops w (file_of w p) (fixed_text c) with
              | Some part =>
                  (Raise OSError, log (EvWrite p part) (store p part w1))
              | None =>
                  (Ok true,
                   log (EvWrite p (fixed_text c)) (store p (fixed_text c) w1))
              end
            else (Raise OSError, w1)
        end
      else (Raise OSError, w0)
    else (Ok false, w0).
Proof.
  intros H. unfold fix_test_file.
  rewrite (read_file_content p c w H), rewrite_text_fixed. cbv beta iota zeta.
  destruct (changes c); [|reflexivity].
  unfold write_file. cbv zeta. cbn [may_write file_of write_stops log store].
  change (T ".backup") with backup_suffix.
  destruct (may_write w (file_of w (p ++ backup_suffix))); [|reflexivity].
  destruct (write_stops w (file_of w (p ++ backup_suffix)) c); [reflexivity|].
  cbn [may_write file_of write_stops log store].
  destruct (may_write w (file_of w p)); [|reflexivity].
  by destruct (write_stops w (file_of w p) (fixed_text c)).
Qed.

Lemma fix_test_file_unread (p : text) (w : world) :
  content_of w p = None → ∃ e, fix_test_file p w = (Raise e, w).
Proof.
  intros [e H]%read_file_none. exists e. unfold fix_test_file. by rewrite H.
Qed.

(** When every open succeeds and no write breaks off. *)
Lemma fix_test_file_ok (p c : text) (w : world) :
  content_of w p = Some c → roomy w →
  (changes c = true →
   may_write w (file_of w p) = true
   ∧ may_write w (file_of w (p ++ backup_suffix)) = true) →
  fix_test_file p w = (Ok (changes c), processed p c w).
Proof.
  intros H Hroom Hw. rewrite (fix_test_file_read p c w H). cbv zeta.
  unfold processed, file_events.
  destruct (changes c); [|reflexivity].
  destruct (Hw eq_refl) as [-> ->]. rewrite !Hroom.
  unfold log, store.
  cbn [cmd file_of disk may_read may_write write_stops stdout trace].
  by rewrite <-!app_assoc.
Qed.

(** The frame of one call, whatever its outcome: the directory, the links,
    the permissions and the room stay, only the file and its backup can
    change, no file disappears, and the file read, if any, is the one at the
    path. *)
Lemma fix_test_file_frame (p : text) (w : world) :
  let w' := (fix_test_file p w).2 in
  same_setting w w' ∧ stdout w' = stdout w
  ∧ (∀ f, f ≠ file_of w p → f ≠ file_of w (p ++ backup_suffix) →
          disk w' !! f = disk w !! f)
  ∧ (∀ f, is_Some (disk w !! f) → is_Some (disk w' !! f))
  ∧ ∃ l, reads (trace w') = reads (trace w) ++ l
         ∧ l `prefix_of` [p]
         ∧ (∀ b, (fix_test_file p w).1 = Ok b → l = [p]).
Proof.
  destruct (content_of w p) as [c|] eqn:Hc.
  - rewrite (fix_test_file_read p c w Hc). cbv zeta.
    assert (Hr : ∀ tr, reads (tr ++ [EvRead p c]) = reads tr ++ [p]).
    { intros tr. by rewrite reads_app. }
    assert (Hw : ∀ tr q x, reads (tr ++ [EvWrite q x]) = reads tr).
    { intros tr q x. rewrite reads_app. apply app_nil_r. }
    destruct (changes c);
      [destruct (may_write w (file_of w (p ++ backup_suffix)));
       [destruct (write_stops w (file_of w (p ++ backup_suffix)) c);
        [|destruct (may_write w (file_of w p));
          [destruct (write_stops w (file_of w p) (fixed_text c))|]]|]|];
      cbn [fst snd]; unfold same_setting, log, store;
      cbn [cmd file_of disk may_read may_write write_stops stdout trace];
      rewrite ?Hw, ?Hr.
    all: split; [done|]; split; [done|].
    all: split; [intros f H1 H2; by rewrite ?lookup_insert_ne|].
    all: split; [intros f Hf; rewrite ?lookup_insert;
                 by repeat case_decide|].
    all: exists [p]; split; [done|]; split; [done|]; done.
  - destruct (fix_test_file_unread p w Hc) as [e ->]. cbn [fst snd].
    split; [done|]. split; [done|]. split; [done|]. split; [done|].
    exists []. rewrite app_nil_r. split; [done|]. split; [apply prefix_nil|].
    intros b. discriminate.
Qed.

(** ** Paths and names *)

Lemma endswith_last (s suffix : text) (x : char) :
  endswith s suffix = true → last suffix = Some x → last s = Some x.
Proof.
  unfold endswith. intros H%bool_decide_eq_true Hx.
  rewrite <-(take_drop (length s - length suffix) s), H.
  rewrite last_app, Hx. done.
Qed.



Lemma backup_suffix_not_test (n : text) :
  endswith (n ++ backup_suffix) test_suffix = false.
Proof.
  destruct (endswith (n ++ backup_suffix) test_suffix) eqn:E; [|done].
  apply (endswith_last _ _ 111%N) in E; [|done].
  rewrite last_app in E. discriminate E.
Qed.

Lemma test_names_cons (n : text) (names : list text) :
  test_names (n :: names)
  = if endswith n test_suffix then n :: test_names names
    else test_names names.
Proof. done. Qed.


Lemma touched_paths_skip (n : text) (names : list text) :
  endswith n test_suffix = false →
  touched_paths (n :: names) = touched_paths names.
Proof.
  intros H. unfold touched_paths, test_paths. by rewrite test_names_cons, H.
Qed.

Lemma touched_paths_test (n : text) (names : list text) :
  endswith n test_suffix = true →
  touched_paths (n :: names)
  ≡ₚ path_join cmd_dir n :: (path_join cmd_dir n ++ backup_suffix)
       :: touched_paths names.
Proof.
  intros H. unfold touched_paths, test_paths. rewrite test_names_cons, H.
  rewrite !fmap_cons. cbn [app]. constructor.
  by rewrite Permutation_middle.
Qed.


(** ** The loop of [main] *)


Lemma main_loop_cons_skip (n : text) (names : list text) (k : nat) (w : world) :
  endswith n test_suffix = false →
  main_loop (n :: names) k w = main_loop names k w.
Proof.
  intros H. cbn [main_loop].
  change (T "_test.go") with test_suffix. by rewrite H.
Qed.

Lemma main_loop_cons_test (n : text) (names : list text) (k : nat) (w : world) :
  endswith n test_suffix = true →
  main_loop (n :: names) k w
  = match fix_test_file (path_join cmd_dir n) w with
    | (Raise e, w') => (Raise e, w')
    | (Ok true, w') =>
        main_loop names (S k) (print (T "Fixed " ++ n) w')
    | (Ok false, w') =>
        main_loop names k (print (T "No changes needed for " ++ n) w')
    end.
Proof.
  intros H. cbn [main_loop].
  change (T "_test.go") with test_suffix. by rewrite H.
Qed.



Lemma main_dir (names : list text) (w : world) :
  cmd w = Dir names →
  main w
  = match main_loop names 0 w with
    | (Raise e, w') => (Raise e, w')
    | (Ok fixed_count, w') => (Ok 0%Z, print (summary_line fixed_count) w')
    end.
Proof. intros H. unfold main. by rewrite H. Qed.

Lemma main_loop_no_tests (names : list text) (k : nat) (w : world) :
  test_names names = [] → main_loop names k w = (Ok k, w).
Proof.
  induction names as [|n names IH]; [done|].
  rewrite test_names_cons. destruct (endswith n test_suffix) eqn:E; [done|].
  intros H. rewrite main_loop_cons_skip by done. by apply IH.
Qed.

(** The frame of the loop, whatever its outcome. *)
Lemma main_loop_frame (names : list text) (k : nat) (w : world) :
  let w' := (main_loop names k w).2 in
  same_setting w w'
  ∧ (∀ f, f ∉ file_of w <$> touched_paths names →
          disk w' !! f = disk w !! f)
  ∧ (∀ f, is_Some (disk w !! f) → is_Some (disk w' !! f))
  ∧ ∃ l, reads (trace w') = reads (trace w) ++ l
         ∧ l `prefix_of` test_paths names.
Proof.
  revert k w. induction names as [|n names IH]; intros k w.
  { cbn [main_loop snd]. split; [done|]. split; [done|]. split; [done|].
    exists []. by rewrite app_nil_r. }
  destruct (endswith n test_suffix) eqn:Ht.
  - rewrite main_loop_cons_test by done.
    set (p := path_join cmd_dir n).
    assert (Hpaths : test_paths (n :: names) = p :: test_paths names).
    { unfold test_paths. by rewrite test_names_cons, Ht. }
    assert (Htouch : ∀ f, f ∉ file_of w <$> touched_paths (n :: names) →
              f ≠ file_of w p ∧ f ≠ file_of w (p ++ backup_suffix)
              ∧ f ∉ file_of w <$> touched_paths names).
    { intros f Hf. rewrite (touched_paths_test n names Ht) in Hf.
      rewrite !fmap_cons in Hf. fold p in Hf.
      apply not_elem_of_cons in Hf as [H1 Hf].
      by apply not_elem_of_cons in Hf as [H2 Hf]. }
    pose proof (fix_test_file_frame p w)
      as (Hset & _ & Hf & Hs & l1 & Hr & Hl1 & Hok).
    cbv zeta in Hset, Hs, Hf, Hr.
    assert (Hgo : ∀ k' line w1,
              same_setting w w1 →
              (∀ f, f ≠ file_of w p → f ≠ file_of w (p ++ backup_suffix) →
                    disk w1 !! f = disk w !! f) →
              (∀ f, is_Some (disk w !! f) → is_Some (disk w1 !! f)) →
              reads (trace w1) = reads (trace w) ++ [p] →
              let w' := (main_loop names k' (print line w1)).2 in
              same_setting w w'
              ∧ (∀ f, f ∉ file_of w <$> touched_paths (n :: names) →
                      disk w' !! f = disk w !! f)
              ∧ (∀ f, is_Some (disk w !! f) → is_Some (disk w' !! f))
              ∧ ∃ l, reads (trace w') = reads (trace w) ++ l
                     ∧ l `prefix_of` test_paths (n :: names)).
    { intros k' line w1 (Hc1 & Hfo1 & Hmr1 & Hmw1 & Hws1) Hf1 Hs1 Hr1.
      destruct (IH k' (print line w1))
        as ((Hc' & Hfo' & Hmr' & Hmw' & Hws') & Hf' & Hs' & l & Hl & Hp).
      cbv zeta in Hc', Hfo', Hmr', Hmw', Hws', Hf', Hs', Hl. cbv zeta.
      set (w' := (main_loop names k' _).2) in *.
      cbn [print cmd file_of may_read may_write write_stops disk trace] in *.
      split; [unfold same_setting; by rewrite Hc', Hfo', Hmr', Hmw', Hws'|].
      split.
      - intros f (H1 & H2 & H3)%Htouch. rewrite Hf'.
        + by apply Hf1.
        + by rewrite Hfo1.
      - split; [by auto|]. exists (p :: l). rewrite Hl, Hr1, <-app_assoc.
        split; [done|]. rewrite Hpaths. by apply prefix_cons. }
    destruct (fix_test_file p w) as [[[|]|e] w1] eqn:E; cbn [fst snd] in *.
    + apply Hgo; [done..|]. by rewrite Hr, (Hok true).
    + apply Hgo; [done..|]. by rewrite Hr, (Hok false).
    + split; [done|]. split.
      * intros f (H1 & H2 & H3)%Htouch. by apply Hf.
      * split; [done|]. exists l1. split; [done|].
        rewrite Hpaths. etrans; [exact Hl1|]. by apply prefix_cons, prefix_nil.
  - rewrite main_loop_cons_skip by done.
    assert (Hpaths : test_paths (n :: names) = test_paths names).
    { unfold test_paths. by rewrite test_names_cons, Ht. }
    rewrite (touched_paths_skip n names Ht), Hpaths. apply IH.
Qed.

(** ** Runs in which every open and every write succeeds *)










Lemma readable_skip (n : text) (names : list text) (w : world) :
  endswith n test_suffix = false →
  readable w (n :: names) = readable w names.
Proof. intros H. unfold readable. by rewrite test_names_cons, H. Qed.

Lemma readable_mono (w w1 : world) (names : list text) :
  (∀ q, is_Some (content_of w q) → is_Some (content_of w1 q)) →
  readable w names = true → readable w1 names = true.
Proof.
  intros Hsub. unfold readable. rewrite !forallb_forall.
  intros H n Hn. specialize (H n Hn).
  apply bool_decide_eq_true in H. apply bool_decide_eq_true. by apply Hsub.
Qed.










(** ** Further properties of runs *)

(** X8.  A name that ends with [.backup] is never processed: the backups a
    run leaves in the directory are skipped by the next run. *)
Theorem backups_are_skipped (n : text) (names : list text) (k : nat)
    (w : world) :
  endswith (n ++ T ".backup") (T "_test.go") = false
  ∧ main_loop ((n ++ T ".backup") :: names) k w = main_loop names k w.
Proof.
  split; [apply backup_suffix_not_test|].
  apply main_loop_cons_skip, backup_suffix_not_test.
Qed.

(** X9.  In a directory that lists no name ending with [_test.go], the
    empty directory among them, the run opens no file, prints the summary
    line for zero files and ends with exit status 0. *)
Theorem run_without_test_files (w : world) (names : list text) :
  cmd w = Dir names → test_names names = [] →
  run w = (0%Z, print (nl :: T "Fixed 0 test files") w).
Proof.
  intros Hcmd Hn. unfold run. rewrite (main_dir names w Hcmd).
  by rewrite main_loop_no_tests.
Qed.

Lemma run_without_test_files_witness :
  run (plain_world (Dir [T "README.md"; T "root_test.go.backup"]) ∅)
  = (0%Z, print (nl :: T "Fixed 0 test files")
            (plain_world (Dir [T "README.md"; T "root_test.go.backup"]) ∅)).
Proof.
  apply (run_without_test_files
           (plain_world (Dir [T "README.md"; T "root_test.go.backup"]) ∅)
           [T "README.md"; T "root_test.go.backup"]); reflexivity.
Defined.

Lemma run_dir_world (names : list text) (w : world) :
  cmd w = Dir names →
  disk (run w).2 = disk (main_loop names 0 w).2
  ∧ trace (run w).2 = trace (main_loop names 0 w).2
  ∧ same_setting (main_loop names 0 w).2 (run w).2.
Proof.
  intros Hcmd. unfold run. rewrite (main_dir names w Hcmd).
  by destruct (main_loop names 0 w) as [[k|e] w'].
Qed.

(** X10.  Whether the run ends normally or with an exception, it changes
    nothing but the files that the paths of the listed test files and of
    their backups lead to: every other file keeps its content, so a path
    that leads to none of those files reads as before; no file disappears;
    links and permissions stay; and the files read are test files of the
    listing, in its order.  This holds too when a write breaks off. *)
Theorem run_touches_only_test_files (w : world) (names : list text) :
  cmd w = Dir names →
  (∀ f, f ∉ file_of w <$> touched_paths names →
        disk (run w).2 !! f = disk w !! f)
  ∧ (∀ q, (∀ p, p ∈ touched_paths names → file_of w q ≠ file_of w p) →
          content_of (run w).2 q = content_of w q)
  ∧ (∀ f, is_Some (disk w !! f) → is_Some (disk (run w).2 !! f))
  ∧ same_setting w (run w).2
  ∧ ∃ l, reads (trace (run w).2) = reads (trace w) ++ l
         ∧ l `prefix_of` test_paths names.
Proof.
  intros Hcmd.
  destruct (run_dir_world names w Hcmd)
    as (Hd & Ht & Hc' & Hfo' & Hmr' & Hmw' & Hws').
  destruct (main_loop_frame names 0 w)
    as ((Hc & Hfo & Hmr & Hmw & Hws) & Hf & Hs & Hr).
  cbv zeta in Hc, Hfo, Hmr, Hmw, Hws, Hf, Hs, Hr.
  assert (Hset : same_setting w (run w).2).
  { unfold same_setting. by rewrite Hc', Hfo', Hmr', Hmw', Hws'. }
  rewrite Hd, Ht. split; [exact Hf|]. split; [|by auto].
  intros q Hq. unfold content_of. rewrite Hd.
  destruct Hset as (_ & -> & -> & _ & _). rewrite Hf; [reflexivity|].
  intros (p & E & Hp)%list_elem_of_fmap. by apply (Hq p).
Qed.

Lemma run_touches_only_test_files_witness :
  disk (run sample_world).2 !! T "cmd/README.md" = Some (Chars (T "docs")).
Proof.
  destruct (run_touches_only_test_files sample_world
              [T "root_test.go"; T "README.md"; T "init_test.go"] eq_refl)
    as (H & _).
  rewrite H; [reflexivity|].
  apply (bool_decide_unpack _). vm_compute. reflexivity.
Defined.



(** ** Runs without links between the files *)


Lemma disk_processed_file (p c : text) (w : world) :
  disk (processed p c w) !! file_of w p
  = if changes c then Some (Chars (fixed_text c)) else disk w !! file_of w p.
Proof.
  unfold processed. cbn [disk].
  destruct (changes c); [|done]. by rewrite lookup_insert_eq.
Qed.

Lemma disk_processed_backup (p c : text) (w : world) :
  file_of w p ≠ file_of w (p ++ backup_suffix) →
  disk (processed p c w) !! file_of w (p ++ backup_suffix)
  = if changes c then Some (Chars c)
    else disk w !! file_of w (p ++ backup_suffix).
Proof.
  intros H. unfold processed. cbn [disk].
  destruct (changes c); [|done].
  by rewrite lookup_insert_ne, lookup_insert_eq.
Qed.




(** What depends on the texts of the test files only is the same in two
    worlds in which these texts are the same. *)
Section agree.
Variables (w w1 : world) (names : list text).
Hypothesis links : file_of w1 = file_of w.
Hypothesis permissions : may_write w1 = may_write w.
Hypothesis texts :
  ∀ n, In n (test_names names) →
       content_of w1 (path_join cmd_dir n) = content_of w (path_join cmd_dir n).




End agree.




(** ** Line ends and second runs *)

Lemma content_of_no_cr (w : world) (p c : text) :
  content_of w p = Some c → no_cr c.
Proof.
  unfold content_of. destruct (may_read w _); [|done].
  destruct (disk w !! _) as [[raw|]|]; [|done..].
  intros [= <-]. apply universal_newlines_no_cr.
Qed.

(** The text of a changed file after the call is the output of the
    chain. *)
Lemma content_of_processed_file (w : world) (p c : text) :
  content_of w p = Some c → changes c = true →
  content_of (processed p c w) p = Some (fixed_text c).
Proof.
  intros Hc H1. pose proof (content_of_no_cr w p c Hc) as Hcr.
  unfold content_of in *. cbn [processed file_of may_read disk].
  destruct (may_read w (file_of w p)); [|done].
  rewrite H1, lookup_insert_eq. f_equal.
  by apply universal_newlines_id, fixed_text_no_cr.
Qed.

(** X13.  A second call on a file that the chain changes again overwrites
    the backup of the first call, when the file and its backup are two
    files that can be written in full: both calls report a change, the file
    ends with the chain applied twice, and the backup holds the output of
    the first call, which is not the text first read. *)
Theorem second_run_overwrites_backup (w : world) (p c : text) :
  content_of w p = Some c →
  changes c = true → changes (fixed_text c) = true →
  may_write w (file_of w p) = true →
  may_write w (file_of w (p ++ backup_suffix)) = true →
  roomy w →
  file_of w (p ++ backup_suffix) ≠ file_of w p →
  let w1 := (fix_test_file p w).2 in
  let w2 := (fix_test_file p w1).2 in
  (fix_test_file p w).1 = Ok true
  ∧ (fix_test_file p w1).1 = Ok true
  ∧ disk w2 !! file_of w p = Some (Chars (fixed_text (fixed_text c)))
  ∧ disk w2 !! file_of w (p ++ backup_suffix) = Some (Chars (fixed_text c))
  ∧ fixed_text c ≠ c.
Proof.
  intros Hc H1 H2 Hwp Hwb Hroom Hpb w1 w2. subst w2 w1.
  rewrite (fix_test_file_ok p c w Hc Hroom) by done. rewrite H1.
  cbn [fst snd].
  pose proof (content_of_processed_file w p c Hc H1) as Hc1.
  rewrite (fix_test_file_ok p (fixed_text c) (processed p c w) Hc1 Hroom)
    by done.
  rewrite H2. cbn [fst snd].
  split; [reflexivity|]. split; [reflexivity|].
  pose proof (disk_processed_file p (fixed_text c) (processed p c w)) as Hf.
  pose proof (disk_processed_backup p (fixed_text c) (processed p c w)) as Hb.
  change (file_of (processed p c w)) with (file_of w) in Hf, Hb.
  rewrite H2 in Hf, Hb.
  split; [exact Hf|]. split; [by apply Hb|].
  unfold changes in H1. apply negb_true_iff in H1.
  by apply bool_decide_eq_false in H1.
Qed.

Lemma second_run_overwrites_backup_witness :
  let p := T "cmd/a_test.go" in
  let w := plain_world Absent {[ p := Chars nested_idiom ]} in
  let w2 := (fix_test_file p (fix_test_file p w).2).2 in
  disk w2 !! (p ++ backup_suffix) = Some (Chars (fixed_text nested_idiom))
  ∧ fixed_text nested_idiom ≠ nested_idiom.
Proof.
  intros p w w2.
  destruct (second_run_overwrites_backup w p nested_idiom)
    as (_ & _ & _ & Hb & Hne);
    [first [ by intros f content
           | vm_compute; solve [reflexivity | discriminate] ]..|].
  exact (conj Hb Hne).
Defined.

(** X14.  A file that is rewritten, with every open and write succeeding,
    loses the line ends of Windows: what is read has line feeds only, and
    so have the text written to the backup and the output of the chain
    written to the file, so the backup is the original exactly when the
    original has no carriage return.  A file that the chain does not change
    is not written and keeps its line ends. *)
Theorem rewritten_file_has_unix_line_ends (w : world) (p raw : text) :
  disk w !! file_of w p = Some (Chars raw) →
  may_read w (file_of w p) = true →
  may_write w (file_of w p) = true →
  may_write w (file_of w (p ++ backup_suffix)) = true →
  roomy w →
  file_of w (p ++ backup_suffix) ≠ file_of w p →
  let c := universal_newlines raw in
  let w' := (fix_test_file p w).2 in
  (fix_test_file p w).1 = Ok (changes c)
  ∧ no_cr c ∧ no_cr (fixed_text c) ∧ (c = raw ↔ no_cr raw)
  ∧ (if changes c
     then disk w' !! file_of w p = Some (Chars (fixed_text c))
          ∧ disk w' !! file_of w (p ++ backup_suffix) = Some (Chars c)
     else disk w' = disk w).
Proof.
  intros Hraw Hr Hwp Hwb Hroom Hpb c w'. subst w'.
  assert (Hc : content_of w p = Some c).
  { unfold content_of. by rewrite Hr, Hraw. }
  pose proof (universal_newlines_no_cr raw) as Hcr. fold c in Hcr.
  rewrite (fix_test_file_ok p c w Hc Hroom) by done. cbn [fst snd].
  split; [reflexivity|]. split; [exact Hcr|].
  split; [by apply fixed_text_no_cr|]. split.
  { split; [intros E; rewrite <-E; exact Hcr|]. apply universal_newlines_id. }
  unfold processed. cbn [disk]. destruct (changes c); [|reflexivity].
  split; [by rewrite lookup_insert_eq|].
  by rewrite lookup_insert_ne, lookup_insert_eq.
Qed.

Lemma rewritten_file_has_unix_line_ends_witness :
  disk (fix_test_file (T "cmd/root_test.go") crlf_world).2
    !! T "cmd/root_test.go"
  = Some (Chars (fixed_text (universal_newlines crlf_text)))
  ∧ universal_newlines crlf_text ≠ crlf_text.
Proof.
  destruct (rewritten_file_has_unix_line_ends crlf_world
              (T "cmd/root_test.go") crlf_text)
    as (_ & _ & _ & _ & H);
    [first [ by intros f content
           | vm_compute; solve [reflexivity | discriminate] ]..|].
  assert (Hch : changes (universal_newlines crlf_text) = true)
    by (vm_compute; reflexivity).
  rewrite Hch in H. destruct H as [H _].
  split; [exact H|]. vm_compute. discriminate.
Defined.



(** X16.  The backup is written before the file.  When the write of the
    backup breaks off, the file has not been opened and is as it was; when
    the backup has been written and the open or the write of the file
    fails, the backup holds the whole text that was read.  In each case the
    call raises [OSError]. *)
Theorem backup_comes_first (w : world) (p c : text) :
  content_of w p = Some c → changes c = true →
  may_write w (file_of w (p ++ backup_suffix)) = true →
  file_of w (p ++ backup_suffix) ≠ file_of w p →
  let b := p ++ backup_suffix in
  let w' := (fix_test_file p w).2 in
  match write_stops w (file_of w b) c with
  | Some part =>
      (fix_test_file p w).1 = Raise OSError
      ∧ disk w' !! file_of w b = Some (Chars part)
      ∧ disk w' !! file_of w p = disk w !! file_of w p
      ∧ writes (trace w') = writes (trace w) ++ [(b, part)]
  | None =>
      disk w' !! file_of w b = Some (Chars c)
      ∧ (may_write w (file_of w p) = false →
         (fix_test_file p w).1 = Raise OSError
         ∧ disk w' !! file_of w p = disk w !! file_of w p)
      ∧ (∀ part,
           may_write w (file_of w p) = true →
           write_stops w (file_of w p) (fixed_text c) = Some part →
           (fix_test_file p w).1 = Raise OSError
           ∧ disk w' !! file_of w p = Some (Chars part))
  end.
Proof.
  intros Hc Hch Hwb Hpb b w'. subst w' b.
  assert (Hbp : file_of w p ≠ file_of w (p ++ backup_suffix)) by congruence.
  rewrite (fix_test_file_read p c w Hc). cbv zeta. rewrite Hch, Hwb.
  destruct (write_stops w (file_of w (p ++ backup_suffix)) c) as [part|].
  - cbn [fst snd]. unfold log, store. cbn [disk trace file_of].
    split; [reflexivity|]. split; [by rewrite lookup_insert_eq|].
    split; [by rewrite lookup_insert_ne|].
    rewrite !writes_app. cbn [writes omap]. by rewrite app_nil_r.
  - destruct (may_write w (file_of w p)).
    + destruct (write_stops w (file_of w p) (fixed_text c)) as [part|];
        cbn [fst snd]; unfold log, store; cbn [disk trace file_of].
      * split; [by rewrite lookup_insert_ne, lookup_insert_eq|].
        split; [discriminate|]. intros part' _ [= <-].
        split; [reflexivity|]. by rewrite lookup_insert_eq.
      * split; [by rewrite lookup_insert_ne, lookup_insert_eq|].
        split; [discriminate|]. intros part' _. discriminate.
    + cbn [fst snd]. unfold log, store. cbn [disk trace file_of].
      split; [by rewrite lookup_insert_eq|]. split.
      * intros _. split; [reflexivity|]. by rewrite lookup_insert_ne.
      * intros part'. discriminate.
Qed.

Lemma backup_comes_first_witness :
  (fix_test_file (T "cmd/root_test.go") full_disk_world).1 = Raise OSError
  ∧ disk (fix_test_file (T "cmd/root_test.go") full_disk_world).2
      !! T "cmd/root_test.go"
    = Some (Chars (T "cmd := " ++ fresh_call)).
Proof.
  pose proof (backup_comes_first full_disk_world (T "cmd/root_test.go")
                (T "cmd := " ++ fresh_call)) as H.
  destruct H as (H1 & _ & H2 & _);
    [vm_compute; solve [reflexivity | discriminate]..|].
  split; [exact H1|]. etrans; [exact H2|]. vm_compute. reflexivity.
Defined.
